(** * The keyword match analyzer of the resume tailor ([app.py], section 5)

    A shallow embedding of [tokenize] and [analyze_match] and the proofs of
    their specification; then the pure parts of what stands around them
    in [app.py]: [extract_text_from_pdf], the text that [build_pdf] writes,
    and the keyword chips of the analysis view.

    - A Python [str] is a sequence of Unicode code points: [list N].
    - [str.lower] and the class [\w] of the [re] module are decided by the
      Unicode character database for code points outside ASCII.  That table
      is not part of the program: it is a parameter ([UnicodeData]); on ASCII
      the two are written out.
    - A Python [set] is a [gset]; the order in which a set is iterated is not
      fixed by the language (string hashes are salted per process), so
      [list(s)] is modelled by an enumeration function that the analysis
      takes as a parameter.
    - A Python [dict] keeps insertion order: an association list.
    - A Python [float] is an IEEE 754 binary64 number: [spec_float] with
      [prec = 53] and [emax = 1024].
    - An exception is a value of [exn]; a call returns [result].
    - Python [bytes] is a list of [Byte.byte]. *)

From Stdlib Require Import ZArith NArith Ascii String Floats.SpecFloat.
From stdpp Require Import base gmap sets list strings sorting.

(** ** Texts *)

Abbreviation codepoint := N.
Abbreviation str := (list N).

(** The text of a string literal of the source (all of them are ASCII). *)
Definition py (s : string) : str :=
  (λ a, N_of_ascii a) <$> list_ascii_of_string s.

(** ** The Unicode character database, as far as [tokenize] consults it *)

Record UnicodeData := {
  (** the full lowercase mapping of a code point outside ASCII, other than
      U+03A3 (one to three code points) *)
  to_lower_full : codepoint → str;
  (** whether a capital sigma is in final position, from the text before it
      (nearest code point first) and the text after it *)
  final_sigma : str → str → bool;
  (** [str.isalnum] of a code point outside ASCII *)
  is_alnum : codepoint → bool
}.

Section Tokenizer.
Variable U : UnicodeData.

(** *** [text.lower()] *)

Definition ascii_lower (c : codepoint) : codepoint :=
  if (65 <=? c)%N && (c <=? 90)%N then (c + 32)%N else c.

Definition lower_at (before after : str) (c : codepoint) : str :=
  if (c <? 128)%N then [ascii_lower c]
  else if (c =? 931)%N then [if final_sigma U before after then 962%N else 963%N]
  else to_lower_full U c.

Fixpoint lower_from (before s : str) : str :=
  match s with
  | [] => []
  | c :: s' => lower_at before s' c ++ lower_from (c :: before) s'
  end.

Definition lower (text : str) : str := lower_from [] text.

(** *** [re.findall(r"\b[a-zA-Z]{2,}\b", s)] *)

(** The class [[a-zA-Z]]. *)
Definition is_letter (c : codepoint) : bool :=
  ((65 <=? c)%N && (c <=? 90)%N) || ((97 <=? c)%N && (c <=? 122)%N).

(** The class [\w] of a [str] pattern: alphanumeric or the underscore. *)
Definition is_word (c : codepoint) : bool :=
  if (c <? 128)%N
  then is_letter c || ((48 <=? c)%N && (c <=? 57)%N) || (c =? 95)%N
  else is_alnum U c.

(** [\b] between two neighbouring positions; [None] is an end of the text. *)
Definition boundary (prev next : option codepoint) : bool :=
  xorb (from_option is_word false prev) (from_option is_word false next).

(** The letters that the greedy repeat [[a-zA-Z]{2,}] takes at the head of
    [s], and the counts it falls back to, longest first. *)
Fixpoint letter_run (s : str) : nat :=
  match s with
  | c :: s' => if is_letter c then S (letter_run s') else 0
  | [] => 0
  end.

Definition repeat_counts (s : str) : list nat :=
  reverse (seq 2 (letter_run s - 1)).

(** The closing [\b], after [n] characters of [s] were taken. *)
Definition boundary_after (s : str) (n : nat) : bool :=
  boundary (s !! (n - 1)) (s !! n).

(** The pattern matched at the head of [s], the character before being
    [prev]: the length of the match. *)
Definition match_here (prev : option codepoint) (s : str) : option nat :=
  if boundary prev (head s) then
    List.find (boundary_after s) (repeat_counts s)
  else None.

(** The scan of [findall]: at each position the pattern is tried; after a
    match the scan resumes where the match ended ([skip] counts the
    characters of the match still to pass). *)
Fixpoint scan (prev : option codepoint) (s : str) (skip : nat) : list str :=
  match s with
  | [] => []
  | c :: s' =>
    match skip with
    | S k => scan (Some c) s' k
    | O =>
      match match_here prev s with
      | Some n => take n s :: scan (Some c) s' (n - 1)
      | None => scan (Some c) s' 0
      end
    end
  end.

Definition findall (s : str) : list str := scan None s 0.

(** *** [STOPWORDS] and [tokenize] *)

Definition STOPWORDS : gset str :=
  list_to_set (py <$>
    ["the"; "a"; "an"; "and"; "or"; "to"; "of"; "in"; "on"; "for"; "with";
     "at"; "by"; "is"; "are"; "was"; "were"; "be"; "this"; "that"; "as";
     "it"; "from"; "will"; "you"; "your"; "our"; "we"; "they"; "them";
     "their"; "i"; "me"; "my"]%string).

Definition tokenize (text : str) : list str :=
  let words := findall (lower text) in
  filter (λ w, w ∉ STOPWORDS) words.

End Tokenizer.

(** ** Exceptions *)

Inductive exn := ZeroDivisionError | OverflowError | ValueError.

Inductive result (A : Type) : Type :=
  | Ok (a : A)
  | Raise (e : exn).
Arguments Ok {A} a.
Arguments Raise {A} e.

Global Instance result_ret : MRet result := λ A a, Ok a.
Global Instance result_bind : MBind result := λ A B f m,
  match m with
  | Ok a => f a
  | Raise e => Raise e
  end.

(** ** Numbers: [int] is [Z], [float] is binary64 *)

(** An [int] as a float operand: mantissa [|n|], exponent 0, which is the
    number itself.  [SFdiv] and [SFmul] take any mantissa and round their
    result only. *)
Definition float_of_int (n : Z) : spec_float :=
  match n with
  | Z0 => S754_zero false
  | Zpos p => S754_finite false p 0
  | Zneg p => S754_finite true p 0
  end.

(** [a / b] on two [int]: the exact quotient, rounded once to binary64
    (to nearest, ties to even). *)
Definition int_truediv (a b : Z) : result spec_float :=
  if (b =? 0)%Z then Raise ZeroDivisionError
  else
    match SFdiv 53 1024 (float_of_int a) (float_of_int b) with
    | S754_infinity _ => Raise OverflowError
    | q => Ok q
    end.

(** [x * n] for a [float] and an [int] that a float holds exactly (here
    100): [n] is converted, then the IEEE product. *)
Definition float_mul_int (x : spec_float) (n : Z) : spec_float :=
  SFmul 53 1024 x (float_of_int n).

(** The integer nearest to [m * 2^e], a tie going to the even one. *)
Definition round_half_even (m e : Z) : Z :=
  match e with
  | Zneg p =>
    let d := (2 ^ Zpos p)%Z in
    let q := (m / d)%Z in
    match (2 * (m mod d) ?= d)%Z with
    | Lt => q
    | Gt => (q + 1)%Z
    | Eq => if Z.even q then q else (q + 1)%Z
    end
  | _ => (m * 2 ^ e)%Z
  end.

(** [round(x)] of a [float], with one argument: the nearest [int], a tie
    going to the even one; no [int] for an infinity or a NaN. *)
Definition py_round (x : spec_float) : result Z :=
  match x with
  | S754_zero _ => Ok 0%Z
  | S754_finite s m e => Ok (cond_Zopp s (round_half_even (Zpos m) e))
  | S754_infinity _ => Raise OverflowError
  | S754_nan => Raise ValueError
  end.

(** ** [sorted]: the stable sort *)

(** [le x y] says that [x] may stand before [y].  An element goes in before
    the first one it may stand before, so elements that compare equal keep
    the order they came in. *)
Section Sorted.
Context {A : Type} (le : A → A → bool).

Fixpoint insert_sorted (x : A) (l : list A) : list A :=
  match l with
  | [] => [x]
  | y :: l' => if le x y then x :: l else y :: insert_sorted x l'
  end.

Definition sorted (l : list A) : list A := foldr insert_sorted [] l.

End Sorted.

(** The order of [str]: code point by code point. *)
Fixpoint str_le (a b : str) : bool :=
  match a, b with
  | [], _ => true
  | _ :: _, [] => false
  | x :: a', y :: b' =>
    if (x <? y)%N then true else if (x =? y)%N then str_le a' b' else false
  end.

(** [key=lambda x: x[1], reverse=True]: the larger count first. *)
Definition count_ge (x y : str * nat) : bool := (y.2 <=? x.2)%nat.

(** ** [dict]: keys in insertion order *)

Abbreviation dict := (list (str * nat)).

Fixpoint dict_get (d : dict) (k : str) (default : nat) : nat :=
  match d with
  | [] => default
  | (k', v) :: d' => if decide (k' = k) then v else dict_get d' k default
  end.

(** [d[k] = v]: a key that is there keeps its place. *)
Fixpoint dict_set (d : dict) (k : str) (v : nat) : dict :=
  match d with
  | [] => [(k, v)]
  | (k', v') :: d' =>
    if decide (k' = k) then (k, v) :: d' else (k', v') :: dict_set d' k v
  end.

(** [dict(items)] *)
Definition dict_of_items (items : list (str * nat)) : dict :=
  foldl (λ d kv, dict_set d kv.1 kv.2) [] items.

(** ** The iteration order of a set *)

(** [list(s)] lists each element of [s] once, in an order that depends on
    the hash seed of the process. *)
Record SetOrder := {
  enum : gset str → list str;
  enum_perm : ∀ s, enum s ≡ₚ elements s
}.

Definition canonical_order : SetOrder :=
  {| enum := elements; enum_perm := λ s, reflexivity (elements s) |}.

(** ** [analyze_match] *)

Record MatchResult := {
  match_score : Z;
  overlap : list str;
  missing : list str;
  top_job_keywords : dict
}.

Section Analyzer.
Variable U : UnicodeData.
Variable O : SetOrder.

Definition len (s : gset str) : Z := Z.of_nat (size s).

(** [int(round(n_overlap / n_jd * 100))]; [int] of an [int] is the [int]
    itself. *)
Definition score_of (n_overlap n_jd : Z) : result Z :=
  q ← int_truediv n_overlap n_jd;
  r ← py_round (float_mul_int q 100);
  mret r.

(** The loop [for w in ...: freq_job[w] = freq_job.get(w, 0) + 1]. *)
Definition count_words (ws : list str) : dict :=
  foldl (λ freq_job w, dict_set freq_job w (dict_get freq_job w 0 + 1)) [] ws.

Definition analyze_match (resume_text job_text : str) : result MatchResult :=
  let jd_tokens : gset str := list_to_set (tokenize U job_text) in
  let res_tokens : gset str := list_to_set (tokenize U resume_text) in
  if decide (jd_tokens = ∅) then
    mret {| match_score := 0; overlap := []; missing := [];
            top_job_keywords := [] |}
  else
    let overlap := jd_tokens ∩ res_tokens in
    let missing := jd_tokens ∖ res_tokens in
    match_score ← score_of (len overlap) (len jd_tokens);
    let freq_job := count_words (tokenize U job_text) in
    let top_job_keywords := take 10 (sorted count_ge freq_job) in
    mret {| match_score := match_score;
            overlap := sorted str_le (enum O overlap);
            missing := sorted str_le (enum O missing);
            top_job_keywords := dict_of_items top_job_keywords |}.

End Analyzer.

(** ** [extract_text_from_pdf] *)

(** [x or y], for [x] a [str] or [None]: [x], unless it is [None] or the
    empty string. *)
Definition py_or (x : option str) (y : str) : str :=
  match x with
  | Some (c :: s) => c :: s
  | _ => y
  end.

(** The document that [pdfplumber.open] returns is taken as the list of its
    pages, and [page.extract_text()] as a function of the page ([None] when
    the library finds no text on it): the two belong to the library. *)
Section Pdf.
Context {Page : Type} (extract_text : Page → option str).

Definition extract_text_from_pdf (pages : list Page) : str :=
  foldl (λ text page, text ++ py_or (extract_text page) []) [] pages.

End Pdf.

(** ** [build_pdf]: the text that goes to the PDF writer *)

(** [text.encode('latin-1', 'replace')]: a code point that Latin-1 does not
    have (one above U+00FF) becomes a question mark. *)
Definition latin1_encode_replace (text : str) : list Byte.byte :=
  (λ c, default Byte.x3f (Byte.of_N c)) <$> text.

(** [data.decode('latin-1')] *)
Definition latin1_decode (data : list Byte.byte) : str := Byte.to_N <$> data.

(** [text.encode('latin-1')]: no bytes ([UnicodeEncodeError]) when the text
    has a code point that Latin-1 does not have. *)
Definition latin1_encode (text : str) : option (list Byte.byte) :=
  mapM Byte.of_N text.

Definition clean_text (text : str) : str :=
  latin1_decode (latin1_encode_replace text).

(** ** The analysis view: keyword chips *)

(** What the page is given to show: [st.markdown(body, unsafe_allow_html)]
    or [st.write(body)]. *)
Inductive element :=
  | markdown (body : str) (unsafe_allow_html : bool)
  | write (body : str).

(** [f"<span class='keyword-chip'>{k}</span>"] *)
Definition keyword_chip (k : str) : str :=
  py "<span class='keyword-chip'>" ++ k ++ py "</span>".

(** ["".join([... for k in ks])] *)
Definition keyword_chips (ks : list str) : str :=
  mjoin (keyword_chip <$> ks).

(** The missing keywords: the first fifteen as chips, or a line of text when
    there is none. *)
Definition show_missing (missing : list str) : element :=
  match missing with
  | _ :: _ => markdown (keyword_chips (take 15 missing)) true
  | [] => write (py "Good match!")
  end.

(** * The vocabulary of the specification *)

(** ** Words and tokens *)

(** The head of [s] as far as it stays in the class [P], and what is left. *)
Fixpoint take_run (P : codepoint → bool) (s : str) : str :=
  match s with
  | c :: s' => if P c then c :: take_run P s' else []
  | [] => []
  end.

Fixpoint drop_run (P : codepoint → bool) (s : str) : str :=
  match s with
  | c :: s' => if P c then drop_run P s' else s
  | [] => []
  end.

(** The maximal runs of characters of the class [P], from left to right: a
    character of the class extends the run that starts right after it, or
    is a run of its own. *)
Definition extend_run (c : codepoint) (rs : list str) : list str :=
  match rs with
  | r :: rs' => (c :: r) :: rs'
  | [] => [[c]]
  end.

Fixpoint runs (P : codepoint → bool) (s : str) : list str :=
  match s with
  | [] => []
  | c :: s' =>
    if P c then
      if from_option P false (head s') then extend_run c (runs P s')
      else [c] :: runs P s'
    else runs P s'
  end.

(** Whether a word character stands before a position, [prev] being the
    character before it, if any. *)
Definition word_before (U : UnicodeData) (prev : option codepoint) : bool :=
  from_option (is_word U) false prev.

Definition letters_only (w : str) : bool := forallb is_letter w.

(** What the pattern accepts of a word: letters only, two at least. *)
Definition is_token (w : str) : Prop := letters_only w = true ∧ 2 ≤ length w.

Global Instance is_token_dec w : Decision (is_token w).
Proof. unfold is_token. apply _. Defined.

(** The words of a text (maximal runs of word characters) that are tokens. *)
Definition word_tokens (U : UnicodeData) (s : str) : list str :=
  filter is_token (runs (is_word U) s).

(** The tokenizer as the specification words it: lowercase, take the maximal
    runs of ASCII letters (every other character separates), keep those of
    length two or more, drop the stopwords. *)
Definition spec_tokenize (U : UnicodeData) (text : str) : list str :=
  filter (λ w, w ∉ STOPWORDS)
    (filter (λ w : str, 2 ≤ length w) (runs is_letter (lower U text))).

(** The class [[a-z]], and the strings made of it. *)
Definition is_lower_letter (c : codepoint) : bool :=
  (97 <=? c)%N && (c <=? 122)%N.

Definition lowercase_word (w : str) : bool := forallb is_lower_letter w.

(** ** What [tokenize] needs of the Unicode database *)

(** A code point that [lower] leaves as it is, wherever it stands. *)
Definition fixed_by_lower (U : UnicodeData) (d : codepoint) : Prop :=
  d ≠ 931%N ∧ ∀ before after, lower_at U before after d = [d].

(** Lowercase mappings are lowercase: [lower] produces only code points
    that it leaves as they are.  The Unicode character database has this
    property. *)
Definition lowercase_closed (U : UnicodeData) : Prop :=
  ∀ before after c, Forall (fixed_by_lower U) (lower_at U before after c).

(** An excerpt of the database (Unicode 14): the code points of Latin-1, the
    Greek letters U+0391 to U+03CE, U+0130 (capital I with dot above),
    U+0307 (combining dot above) and U+212A (the Kelvin sign).  Every other code
    point is taken to have no case, not to be alphanumeric and not to be
    case-ignorable. *)
Definition excerpt_letter (c : codepoint) : bool :=
  ((192 <=? c)%N && (c <=? 255)%N && negb (c =? 215)%N && negb (c =? 247)%N)
  || ((913 <=? c)%N && (c <=? 974)%N && negb (c =? 930)%N)
  || (c =? 304)%N || (c =? 8490)%N.

Definition excerpt_cased (c : codepoint) : bool :=
  is_letter c || bool_decide (c ∈ [170; 181; 186]%N) || excerpt_letter c.

Definition excerpt_case_ignorable (c : codepoint) : bool :=
  bool_decide
    (c ∈ [39; 46; 58; 94; 96; 168; 173; 175; 180; 183; 184; 775]%N).

Definition ucd_excerpt : UnicodeData := {|
  to_lower_full c :=
    if (192 <=? c)%N && (c <=? 222)%N && negb (c =? 215)%N then [(c + 32)%N]
    else if (913 <=? c)%N && (c <=? 939)%N && negb (c =? 930)%N
      then [(c + 32)%N]
    else if (c =? 304)%N then [105%N; 775%N]
    else if (c =? 8490)%N then [107%N]
    else [c];
  final_sigma before after :=
    from_option excerpt_cased false
      (head (drop_run excerpt_case_ignorable before))
    && negb (from_option excerpt_cased false
               (head (drop_run excerpt_case_ignorable after)));
  is_alnum c :=
    bool_decide (c ∈ [170; 178; 179; 181; 185; 186; 188; 189; 190]%N)
    || excerpt_letter c
|}.

(** ** The analysis *)

(** The set of the tokens of a text. *)
Definition token_set (U : UnicodeData) (text : str) : gset str :=
  list_to_set (tokenize U text).

(** The number of times [k] stands in [ws]. *)
Definition count (k : str) (ws : list str) : nat := length (filter (k =.) ws).

Definition keys (d : dict) : list str := d.*1.

(** The ten most frequent words of a list, with their counts. *)
Definition top_of (ws : list str) : dict :=
  take 10 (sorted count_ge (count_words ws)).

Definition empty_result : MatchResult :=
  {| match_score := 0; overlap := []; missing := []; top_job_keywords := [] |}.

(** The integer nearest to [n / d], a tie going to the even one. *)
Definition nearest_half_even (n d : Z) : Z :=
  let q := (n / d)%Z in
  match (2 * (n mod d) ?= d)%Z with
  | Lt => q
  | Gt => (q + 1)%Z
  | Eq => if Z.even q then q else (q + 1)%Z
  end.

(** A job text of forty tokens, and a resume that has twenty-three of
    them. *)
Definition job40 : str :=
  py "aa ab ac ad ae af ag ah ai aj ak al am ao ap aq ar au av aw ax ay az ba bb bc bd bf bg bh bi bj bk bl bm bn bo bp bq br".

Definition resume23 : str :=
  py "aa ab ac ad ae af ag ah ai aj ak al am ao ap aq ar au av aw ax ay az".

(** ** Floats *)

(** The float of mantissa [m >= 0] and exponent [e]. *)
Definition float_of (m e : Z) : spec_float :=
  match m with
  | Z.pos p => S754_finite false p e
  | _ => S754_zero false
  end.

(** The record [mrs] places the fraction [N / D] among the integers: its
    mantissa is the integer part, its two bits say where the rest stands
    with respect to one half. *)
Definition shr_locates (mrs : shr_record) (N D : Z) : Prop :=
  (shr_m mrs * D ≤ N < (shr_m mrs + 1) * D)%Z
  ∧ match shr_r mrs, shr_s mrs with
    | false, false => N = (shr_m mrs * D)%Z
    | false, true => (0 < 2 * (N - shr_m mrs * D) < D)%Z
    | true, false => (2 * (N - shr_m mrs * D))%Z = D
    | true, true => (D < 2 * (N - shr_m mrs * D))%Z
    end.

(** ** Further vocabulary *)

(** A database that knows nothing outside ASCII: no case, no alphanumeric
    there. *)
Definition ucd_ascii : UnicodeData := {|
  to_lower_full c := [c];
  final_sigma _ _ := false;
  is_alnum _ := false
|}.

(** The strings [ws] stand in [s] one after the other, in this order and
    without overlap. *)
Fixpoint found_in_order (ws : list str) (s : str) : Prop :=
  match ws with
  | [] => True
  | w :: ws' => ∃ l1 l2, s = l1 ++ w ++ l2 ∧ found_in_order ws' l2
  end.

(** The distinct words of a list, in the order of their first occurrence. *)
Fixpoint first_seen (ws : list str) : list str :=
  match ws with
  | [] => []
  | w :: ws' => w :: filter (λ x, x ≠ w) (first_seen ws')
  end.

(** The characters that HTML reads as markup: the two quotes, the
    ampersand and the angle brackets. *)
Definition markup : list codepoint := [34; 38; 39; 60; 62]%N.

(** * The tokenizer *)

(** Case analysis on the comparisons of code points in the goal. *)
Ltac case_codepoint :=
  repeat match goal with
  | |- context [N.ltb ?a ?b] => destruct (N.ltb_spec a b)
  | |- context [N.leb ?a ?b] => destruct (N.leb_spec a b)
  | |- context [N.eqb ?a ?b] => destruct (N.eqb_spec a b)
  end.

Section TokenizerTheory.
Variable U : UnicodeData.

Lemma runs_in P c s :
  P c = true → runs P (c :: s) = (c :: take_run P s) :: runs P (drop_run P s).
Proof.
  revert c. induction s as [|d s IH]; intros c Hc.
  - simpl. by rewrite Hc.
  - cbn [runs take_run drop_run head from_option] in *. rewrite Hc.
    destruct (P d) eqn:Hd.
    + specialize (IH d Hd). rewrite Hd in IH. by rewrite IH.
    + simpl. by rewrite Hd.
Qed.

Lemma runs_out P c s : P c = false → runs P (c :: s) = runs P s.
Proof. intros Hc; simpl. by rewrite Hc. Qed.

Lemma take_take_run P s : take (length (take_run P s)) s = take_run P s.
Proof. induction s as [|c s IH]; simpl; [done|]. destruct (P c); simpl; by f_equal. Qed.

Lemma drop_take_run P s : drop (length (take_run P s)) s = drop_run P s.
Proof. induction s as [|c s IH]; simpl; [done|]. by destruct (P c). Qed.

Lemma drop_run_head P s : from_option P false (head (drop_run P s)) = false.
Proof. induction s as [|c s IH]; simpl; [done|]. by destruct (P c) eqn:E; simpl. Qed.

Lemma drop_run_out P s : from_option P false (head s) = false → drop_run P s = s.
Proof. destruct s as [|c s]; simpl; [done|]. by intros ->. Qed.

Lemma drop_run_length P s : length (drop_run P s) ≤ length s.
Proof. induction s as [|c s IH]; simpl; [done|]. destruct (P c); simpl; lia. Qed.

Lemma is_letter_word c : is_letter c = true → is_word U c = true.
Proof.
  intros H. unfold is_word.
  destruct (N.ltb_spec c 128) as [_|Hge]; [by rewrite H|].
  exfalso. revert H. unfold is_letter.
  rewrite orb_true_iff, !andb_true_iff, !N.leb_le. lia.
Qed.

Lemma letter_run_length s : letter_run s = length (take_run is_letter s).
Proof. induction s as [|c s IH]; simpl; [done|]. destruct (is_letter c); simpl; lia. Qed.

(** The letters at the head of a word: all of it, or they stop at a word
    character that is not a letter. *)
Lemma letter_run_word s :
  letters_only (take_run (is_word U) s) = true ∧
    take_run is_letter s = take_run (is_word U) s
  ∨ letters_only (take_run (is_word U) s) = false ∧
    ∃ d, s !! letter_run s = Some d ∧ is_word U d = true.
Proof.
  unfold letters_only. induction s as [|c s IH]; simpl; [by left|].
  destruct (is_letter c) eqn:Hl.
  - rewrite (is_letter_word c Hl). simpl. rewrite Hl. simpl.
    destruct IH as [[H1 H2]|[H1 H2]]; [left|right]; split; try done.
    by rewrite H2.
  - destruct (is_word U c) eqn:Hw; simpl.
    + right. rewrite Hl. simpl. eauto.
    + by left.
Qed.

Lemma letter_run_lookup s j :
  j < letter_run s → ∃ d, s !! j = Some d ∧ is_letter d = true.
Proof.
  revert j. induction s as [|c s IH]; simpl; intros j Hj; [lia|].
  destruct (is_letter c) eqn:Hl; [|lia].
  destruct j as [|j]; simpl; [eauto|]. apply IH. lia.
Qed.

Lemma take_run_lookup_end P s :
  from_option P false (s !! length (take_run P s)) = false.
Proof.
  induction s as [|c s IH]; simpl; [done|].
  destruct (P c) eqn:E; simpl; [done|]. by rewrite E.
Qed.

Lemma find_all_false {A} (f : A → bool) l :
  (∀ x, x ∈ l → f x = false) → List.find f l = None.
Proof.
  induction l as [|x l IH]; simpl; intros H; [done|].
  rewrite (H x) by constructor. apply IH. intros y Hy. apply H. by constructor.
Qed.

Lemma boundary_after_inside s j :
  1 ≤ j → j < letter_run s → boundary_after U s j = false.
Proof.
  intros H1 H2. unfold boundary_after, boundary.
  destruct (letter_run_lookup s (j - 1)) as (d1 & -> & Hd1); [lia|].
  destruct (letter_run_lookup s j) as (d2 & -> & Hd2); [lia|].
  simpl. by rewrite !is_letter_word.
Qed.

Lemma find_repeat_counts s :
  List.find (boundary_after U s) (repeat_counts s) =
  if (2 <=? letter_run s) && boundary_after U s (letter_run s)
  then Some (letter_run s) else None.
Proof.
  unfold repeat_counts.
  assert (∀ j, 2 ≤ j → j < letter_run s → boundary_after U s j = false) as Hin
    by (intros; apply boundary_after_inside; lia).
  destruct (letter_run s) as [|[|m]]; [done..|].
  replace (S (S m) - 1) with (S m) by lia.
  rewrite seq_S, reverse_app. simpl.
  destruct (boundary_after U s (S (S m))); [done|].
  apply find_all_false. intros j Hj.
  apply elem_of_reverse, elem_of_seq in Hj. apply Hin; lia.
Qed.

(** The pattern at the head of [s]: it matches when no word character
    stands before, and the word at the head of [s] is made of letters, two
    at least; the match is that word. *)
Lemma match_here_word prev s :
  match_here U prev s =
  if negb (word_before U prev) && letters_only (take_run (is_word U) s)
     && (2 <=? length (take_run (is_word U) s))
  then Some (length (take_run (is_word U) s)) else None.
Proof.
  unfold match_here. rewrite find_repeat_counts.
  destruct (letter_run_word s) as [[Hl He]|[Hl (d & Hd & Hw)]]; rewrite Hl.
  - rewrite letter_run_length, He.
    set (w := take_run (is_word U) s).
    destruct (Nat.leb_spec 2 (length w)) as [Hk|Hk]; simpl;
      [|by rewrite andb_false_r; destruct (boundary _ _)].
    assert (boundary_after U s (length w) = true) as ->.
    { unfold boundary_after, boundary. subst w.
      rewrite take_run_lookup_end.
      destruct (letter_run_lookup s (length (take_run (is_word U) s) - 1))
        as (d & -> & Hd); [rewrite letter_run_length, He; lia|].
      simpl. by rewrite is_letter_word. }
    rewrite !andb_true_r.
    destruct s as [|c s']; [simpl in Hk; lia|]. subst w. simpl in *.
    destruct (is_word U c) eqn:Hc; [|simpl in Hk; lia].
    unfold boundary, word_before. simpl. rewrite Hc.
    by destruct (from_option _ _ prev).
  - rewrite andb_false_r. simpl.
    assert (boundary_after U s (letter_run s) = false) as ->.
    { unfold boundary_after, boundary. rewrite Hd. simpl. rewrite Hw.
      destruct (letter_run s) as [|k] eqn:Hk.
      - simpl. rewrite Hd. simpl. by rewrite Hw.
      - destruct (letter_run_lookup s (S k - 1)) as (d1 & -> & Hd1); [lia|].
        simpl. by rewrite is_letter_word. }
    rewrite andb_false_r. by destruct (boundary _ _).
Qed.

Lemma scan_skip s prev k :
  scan U prev s (S k) = scan U (s !! k) (drop (S k) s) 0.
Proof.
  revert prev k. induction s as [|c s IH]; intros prev k; [done|].
  destruct k as [|k]; simpl; [done|]. apply IH.
Qed.

Lemma scan_words_aux n : ∀ s prev,
  length s ≤ n →
  scan U prev s 0 =
  word_tokens U (if word_before U prev then drop_run (is_word U) s else s).
Proof.
  induction n as [|n IH]; intros [|c s] prev Hn; simpl in Hn; try lia.
  { by destruct (word_before U prev). }
  { by destruct (word_before U prev). }
  cbn [scan]. rewrite match_here_word.
  assert (scan U (Some c) s 0 =
          word_tokens U (if is_word U c then drop_run (is_word U) s else s))
    as Hnext by (by rewrite IH by lia).
  destruct (is_word U c) eqn:Hc.
  - assert (take_run (is_word U) (c :: s) = c :: take_run (is_word U) s) as ->
      by (simpl; by rewrite Hc).
    assert (drop_run (is_word U) (c :: s) = drop_run (is_word U) s) as ->
      by (simpl; by rewrite Hc).
    destruct (word_before U prev) eqn:Hp; cbn [negb andb]; [done|].
    unfold word_tokens in Hnext |- *. rewrite runs_in by done.
    rewrite filter_cons, <-Hnext.
    set (w := c :: take_run (is_word U) s).
    destruct (letters_only w) eqn:Hl; cbn [andb].
    + destruct (Nat.leb_spec 2 (length w)) as [Hk|Hk].
      * rewrite decide_True by done. f_equal.
        { subst w. simpl. f_equal. apply take_take_run. }
        assert (length w - 1 = S (length (take_run (is_word U) s) - 1)) as ->
          by (subst w; simpl in *; lia).
        rewrite scan_skip.
        replace (S (length (take_run (is_word U) s) - 1))
          with (length (take_run (is_word U) s)) by (subst w; simpl in *; lia).
        rewrite drop_take_run.
        rewrite Hnext, IH
          by (pose proof (drop_run_length (is_word U) s); lia).
        rewrite (drop_run_out _ (drop_run _ _)) by apply drop_run_head.
        unfold word_tokens. by destruct (word_before U (s !! _)).
      * subst w. by rewrite decide_False by (intros [_ ?]; lia).
    + subst w. by rewrite decide_False by (intros [? _]; congruence).
  - assert (take_run (is_word U) (c :: s) = []) as ->
      by (simpl; by rewrite Hc).
    assert (drop_run (is_word U) (c :: s) = c :: s) as ->
      by (simpl; by rewrite Hc).
    rewrite andb_false_r. rewrite Hnext. unfold word_tokens.
    destruct (word_before U prev); by rewrite runs_out.
Qed.

(** [findall] returns the words of the text that are made of letters only,
    two at least. *)
Lemma findall_words s : findall U s = word_tokens U s.
Proof. unfold findall. by rewrite (scan_words_aux (length s)). Qed.

End TokenizerTheory.

Section LowerTheory.
Variable U : UnicodeData.

Lemma lower_from_fixed s :
  Forall (fixed_by_lower U) s → ∀ before, lower_from U before s = s.
Proof.
  induction 1 as [|c s [_ Hc] _ IH]; intros before; simpl; [done|].
  by rewrite Hc, IH.
Qed.

Lemma lower_from_closed s before :
  lowercase_closed U → Forall (fixed_by_lower U) (lower_from U before s).
Proof.
  intros HU. revert before. induction s as [|c s IH]; intros before; simpl; [done|].
  apply Forall_app. split; [apply HU|apply IH].
Qed.

Lemma lower_idempotent text :
  lowercase_closed U → lower U (lower U text) = lower U text.
Proof. intros HU. apply lower_from_fixed. by apply lower_from_closed. Qed.

Lemma fixed_letter_lower d :
  fixed_by_lower U d → is_letter d = true → is_lower_letter d = true.
Proof.
  intros [_ Hd]. specialize (Hd [] []). revert Hd.
  unfold lower_at, ascii_lower, is_letter, is_lower_letter.
  rewrite orb_true_iff, !andb_true_iff, !N.leb_le.
  destruct (N.ltb_spec d 128); [|lia].
  destruct (N.leb_spec 65 d), (N.leb_spec d 90); simpl; intros ??; try lia.
  simplify_eq. lia.
Qed.

Lemma Forall_take_run_of (Q : codepoint → Prop) P s :
  Forall Q s → Forall Q (take_run P s).
Proof. induction 1; simpl; [done|]. destruct (P x); by constructor. Qed.

Lemma Forall_drop_run_of (Q : codepoint → Prop) P s :
  Forall Q s → Forall Q (drop_run P s).
Proof. induction 1; simpl; [done|]. destruct (P x); [done|]. by constructor. Qed.

Lemma Forall_runs (Q : codepoint → Prop) P s :
  Forall Q s → Forall (Forall Q) (runs P s).
Proof.
  remember (length s) as n eqn:Hn. revert s Hn.
  induction n as [n IH] using lt_wf_ind. intros [|c s] -> Hs; [constructor|].
  inversion_clear Hs as [|?? Hc Hs'].
  destruct (P c) eqn:E.
  - rewrite runs_in by done. constructor.
    + constructor; [done|]. by apply Forall_take_run_of.
    + eapply IH; [|done|by apply Forall_drop_run_of].
      pose proof (drop_run_length P s). simpl. lia.
  - rewrite runs_out by done. eapply IH; [|done|done]. simpl. lia.
Qed.

End LowerTheory.

(** The excerpt of the database is closed under [lower]. *)

Lemma ascii_fixed U c :
  (c < 128)%N → fixed_by_lower U (ascii_lower c).
Proof.
  intros Hc. unfold fixed_by_lower, lower_at, ascii_lower.
  destruct (N.leb_spec 65 c), (N.leb_spec c 90); simpl; (split; [lia|]);
    intros b a; case_codepoint; simpl; try done; lia.
Qed.

Lemma ucd_excerpt_closed : lowercase_closed ucd_excerpt.
Proof.
  intros before after c. unfold lower_at.
  destruct (N.ltb_spec c 128) as [Hc|Hc].
  { constructor; [by apply ascii_fixed|done]. }
  assert (∀ d, (128 ≤ d)%N → d ≠ 931%N → to_lower_full ucd_excerpt d = [d] →
               fixed_by_lower ucd_excerpt d) as Hfix.
  { intros d H1 H2 H3. split; [done|]. intros ??. unfold lower_at.
    destruct (N.ltb_spec d 128); [lia|].
    destruct (N.eqb_spec d 931); [done|]. done. }
  destruct (N.eqb_spec c 931) as [->|Hs].
  { constructor; [|done]. destruct (final_sigma _ _ _); by apply Hfix. }
  simpl. case_codepoint; simpl; subst;
  repeat first [ constructor | apply (ascii_fixed ucd_excerpt 105); lia
               | apply (ascii_fixed ucd_excerpt 107); lia
               | apply Hfix; [lia|lia|] ]; simpl.
  all: case_codepoint; simpl; try done; lia.
Qed.

(** * Floating point: the score *)

Section FloatTheory.
Local Open Scope Z_scope.

Lemma Zdigits2_bounds p :
  2 ^ (Zpos (digits2_pos p) - 1) ≤ Zpos p < 2 ^ Zpos (digits2_pos p).
Proof.
  induction p as [p IH|p IH|]; simpl digits2_pos; [| |done].
  - rewrite Pos2Z.inj_succ, Z.pow_succ_r by lia.
    replace (Z.succ (Z.pos (digits2_pos p)) - 1)
      with (Z.succ (Z.pos (digits2_pos p) - 1)) by lia.
    rewrite Z.pow_succ_r by lia. lia.
  - rewrite Pos2Z.inj_succ, Z.pow_succ_r by lia.
    replace (Z.succ (Z.pos (digits2_pos p)) - 1)
      with (Z.succ (Z.pos (digits2_pos p) - 1)) by lia.
    rewrite Z.pow_succ_r by lia. lia.
Qed.

(** A number below [2^k] has at most [k] digits. *)
Lemma Zdigits2_le m k : 0 ≤ m → 0 ≤ k → m < 2 ^ k → Zdigits2 m ≤ k.
Proof.
  intros Hm Hk Hlt. destruct m as [|p|p]; simpl; [done| |lia].
  destruct (Zdigits2_bounds p) as [Hlo _].
  destruct (Z.le_gt_cases (Z.pos (digits2_pos p)) k) as [|Hgt]; [done|].
  exfalso. assert (2 ^ k ≤ 2 ^ (Z.pos (digits2_pos p) - 1))
    by (apply Z.pow_le_mono_r; lia). lia.
Qed.

Lemma iter_pos_nat {A} (f : A → A) p x :
  SpecFloat.iter_pos f p x = Nat.iter (Pos.to_nat p) f x.
Proof.
  revert x. induction p as [p IH|p IH|]; intros x;
    cbn [SpecFloat.iter_pos]; [| |done].
  - rewrite !IH, Pos2Nat.inj_xI.
    replace (S (2 * Pos.to_nat p))%nat
      with (Pos.to_nat p + S (Pos.to_nat p))%nat by lia.
    by rewrite Nat.iter_add, Nat.iter_succ_r.
  - rewrite !IH, Pos2Nat.inj_xO.
    replace (2 * Pos.to_nat p)%nat
      with (Pos.to_nat p + Pos.to_nat p)%nat by lia.
    by rewrite Nat.iter_add.
Qed.

Lemma shr_1_m mrs : 0 ≤ shr_m mrs → shr_m (shr_1 mrs) = shr_m mrs / 2.
Proof.
  destruct mrs as [m r s]. simpl. intros Hm.
  destruct m as [|[p|p|]|p]; simpl; try lia; try done.
  - rewrite Pos2Z.inj_xI. apply Z.div_unique with 1; lia.
  - rewrite Pos2Z.inj_xO. apply Z.div_unique with 0; lia.
Qed.

Lemma shr_iter_m n mrs :
  0 ≤ shr_m mrs →
  shr_m (Nat.iter n shr_1 mrs) = shr_m mrs / 2 ^ Z.of_nat n.
Proof.
  intros Hm. induction n as [|n IH]; [by rewrite Z.div_1_r|].
  rewrite Nat2Z.inj_succ, Z.pow_succ_r by lia. simpl.
  rewrite shr_1_m by (rewrite IH; apply Z.div_pos; lia).
  rewrite IH, Z.div_div by lia. f_equal. lia.
Qed.

(** What [shr] does to the mantissa and to the exponent. *)
Lemma shr_spec mrs e n mrs' e' :
  0 ≤ shr_m mrs → shr mrs e n = (mrs', e') →
  e' = e + Z.max 0 n ∧ shr_m mrs' = shr_m mrs / 2 ^ Z.max 0 n.
Proof.
  intros Hm. unfold shr. destruct n as [|p|p]; intros [= <- <-].
  - rewrite Z.max_id, Z.add_0_r, Z.pow_0_r, Z.div_1_r. done.
  - rewrite Z.max_r by lia. rewrite iter_pos_nat.
    rewrite <-(positive_nat_Z p). split; [done|]. by apply shr_iter_m.
  - rewrite Z.max_l by lia. rewrite Z.add_0_r, Z.pow_0_r, Z.div_1_r. done.
Qed.

Lemma shr_1_locates mrs N D :
  0 ≤ shr_m mrs → 0 < D → shr_locates mrs N D →
  shr_locates (shr_1 mrs) N (2 * D).
Proof.
  destruct mrs as [m r s]. unfold shr_locates. simpl. intros Hm HD [Hb Hl].
  destruct m as [|[p|p|]|p]; try lia; destruct r, s; simpl; nia.
Qed.

Lemma shr_iter_locates n mrs N D :
  0 ≤ shr_m mrs → 0 < D → shr_locates mrs N D →
  shr_locates (Nat.iter n shr_1 mrs) N (2 ^ Z.of_nat n * D).
Proof.
  intros Hm HD Hl. induction n as [|n IH].
  { change (2 ^ Z.of_nat 0) with 1. by rewrite Z.mul_1_l. }
  rewrite Nat2Z.inj_succ, Z.pow_succ_r by lia. simpl.
  rewrite <-Z.mul_assoc. apply shr_1_locates; [|nia|done].
  rewrite shr_iter_m by done. apply Z.div_pos; [done|].
  apply Z.pow_pos_nonneg; lia.
Qed.

Lemma shr_locates_spec mrs e n mrs' e' N D :
  0 ≤ shr_m mrs → 0 < D → shr_locates mrs N D → shr mrs e n = (mrs', e') →
  shr_locates mrs' N (2 ^ Z.max 0 n * D).
Proof.
  intros Hm HD Hl. unfold shr. destruct n as [|p|p]; intros [= <- <-].
  - change (2 ^ Z.max 0 0) with 1. by rewrite Z.mul_1_l.
  - rewrite Z.max_r by lia. rewrite iter_pos_nat, <-(positive_nat_Z p).
    by apply shr_iter_locates.
  - rewrite Z.max_l by lia. change (2 ^ 0) with 1. by rewrite Z.mul_1_l.
Qed.

(** A record that places [m * D / D] carries no bit. *)
Lemma shr_locates_exact mrs D :
  0 < D → shr_locates mrs (shr_m mrs * D) D →
  loc_of_shr_record mrs = loc_Exact.
Proof.
  destruct mrs as [m r s]. unfold shr_locates. simpl. intros HD [_ Hl].
  destruct r, s; [lia..|done].
Qed.

Lemma round_nearest_even_bounds m l :
  m ≤ round_nearest_even m l ≤ m + 1
  ∧ (l = loc_Exact → round_nearest_even m l = m).
Proof.
  unfold round_nearest_even.
  destruct l as [|[]]; try destruct (Z.even m); split; try done; lia.
Qed.

Lemma round_nearest_even_near mrs N D :
  0 < D → shr_locates mrs N D →
  2 * Z.abs (round_nearest_even (shr_m mrs) (loc_of_shr_record mrs) * D - N) ≤ D.
Proof.
  destruct mrs as [m r s]. unfold shr_locates. simpl. intros HD [Hb Hl].
  destruct r, s; simpl; try destruct (Z.even m); lia.
Qed.

Lemma new_location_exact nb k : new_location nb k ≠ loc_Exact → k ≠ 0.
Proof.
  unfold new_location, new_location_even, new_location_odd.
  intros H ->. by destruct (Z.even nb).
Qed.

Lemma new_location_locates q r b a :
  0 < b → a = q * b + r → 0 ≤ r < b →
  shr_locates (shr_record_of_loc q (new_location b r)) a b.
Proof.
  intros Hb -> Hr. unfold new_location, new_location_even, new_location_odd.
  destruct (Z.even b) eqn:Hev.
  - destruct (Z.eqb_spec r 0) as [->|Hr0]; [unfold shr_locates; simpl; lia|].
    destruct (Z.compare_spec (2 * r) b); unfold shr_locates; simpl; lia.
  - destruct (Z.eqb_spec r 0) as [->|Hr0]; [unfold shr_locates; simpl; lia|].
    assert (b = 2 * (b / 2) + 1) as Hodd.
    { rewrite (Z.div_mod b 2) at 1 by lia. f_equal.
      rewrite Zmod_even, Hev. done. }
    destruct (Z.compare_spec (2 * r + 1) b); unfold shr_locates; simpl; lia.
Qed.

(** One alignment step of the rounding, for a mantissa below [K * 2^-e]
    and a bound [E] on the exponents of the numbers up to [K]: it divides
    the mantissa by a power of two and keeps track of what it drops. *)
Lemma shr_fexp_spec K E m e l mrs' e' N D :
  0 < K < 2 ^ (53 + E) → -1074 ≤ E ≤ 0 → e ≤ E →
  0 ≤ m → m ≤ K * 2 ^ (- e) → (l ≠ loc_Exact → m < K * 2 ^ (- e)) →
  0 < D → shr_locates (shr_record_of_loc m l) N D →
  shr_fexp 53 1024 m e l = (mrs', e') →
  e ≤ e' ≤ E
  ∧ shr_m mrs' = m / 2 ^ (e' - e)
  ∧ 0 ≤ shr_m mrs' ≤ K * 2 ^ (- e')
  ∧ (loc_of_shr_record mrs' ≠ loc_Exact → shr_m mrs' < K * 2 ^ (- e'))
  ∧ shr_locates mrs' N (2 ^ (e' - e) * D).
Proof.
  intros HK HE He Hm Hle Hlt HD Hloc. unfold shr_fexp. intros Hshr.
  set (n := Z.max 0 (fexp 53 1024 (Zdigits2 m + e) - e)).
  assert (shr_m (shr_record_of_loc m l) = m) as Hrec by (by destruct l as [|[]]).
  pose proof Hshr as Hshr'.
  apply shr_locates_spec with (N := N) (D := D) in Hshr';
    [|by rewrite Hrec|done|done].
  apply shr_spec in Hshr as (He' & Hm'); [|by rewrite Hrec].
  fold n in He', Hm', Hshr'. rewrite Hrec in Hm'.
  assert (0 < 2 ^ (- e)) as Hpe by (apply Z.pow_pos_nonneg; lia).
  assert (0 ≤ 53 + E) as HE53.
  { destruct (Z.le_gt_cases 0 (53 + E)) as [|Hneg]; [done|].
    rewrite Z.pow_neg_r in HK; lia. }
  assert (Zdigits2 m ≤ 53 + E - e) as Hd.
  { apply Zdigits2_le; [lia..|].
    replace (53 + E - e) with ((53 + E) + - e) by lia.
    rewrite Z.pow_add_r by lia. nia. }
  assert (0 ≤ n) as Hn0 by lia.
  assert (e' ≤ E) as He'E by (subst e' n; unfold fexp, emin; lia).
  replace (e' - e) with n by lia.
  assert (0 < 2 ^ n) as Hpn by (apply Z.pow_pos_nonneg; lia).
  assert (0 < 2 ^ (- e')) as Hpe' by (apply Z.pow_pos_nonneg; lia).
  assert (2 ^ (- e) = 2 ^ (- e') * 2 ^ n) as Hsplit.
  { rewrite <-Z.pow_add_r by lia. f_equal. lia. }
  assert (shr_m mrs' ≤ K * 2 ^ (- e')) as Hle'.
  { rewrite Hm'. apply Z.div_le_upper_bound; [lia|]. nia. }
  split_and!; try done; try lia.
  { rewrite Hm'. apply Z.div_pos; lia. }
  intros Hl'.
  destruct (Z.eq_dec (shr_m mrs') (K * 2 ^ (- e'))) as [Heq|]; [|lia].
  exfalso. apply Hl'. apply (shr_locates_exact _ (2 ^ n * D)); [nia|].
  assert (m = K * 2 ^ (- e)) as Hmeq.
  { pose proof (Z.mul_div_le m (2 ^ n) Hpn). rewrite <-Hm' in *. nia. }
  assert (N = m * D) as HN.
  { destruct l as [|c]; [apply Hloc|]. exfalso.
    assert (m < K * 2 ^ (- e)); [by apply Hlt|lia]. }
  replace (shr_m mrs' * (2 ^ n * D)) with N; [done|].
  rewrite HN, Hmeq, Heq, Hsplit. ring.
Qed.

(** The rounding to binary64 of the number [N / D * 2^ex], which is at most
    [K]: the result is a float [m * 2^e], at most [K], whose exponent is at
    most [E], and which is off by three halves of [2^e] at most. *)
Lemma binary_round_aux_spec K E mx ex lx N D :
  0 < K < 2 ^ (53 + E) → -1074 ≤ E ≤ 0 → ex ≤ E →
  0 ≤ mx → mx ≤ K * 2 ^ (- ex) → (lx ≠ loc_Exact → mx < K * 2 ^ (- ex)) →
  0 < D → shr_locates (shr_record_of_loc mx lx) N D →
  ∃ m e, 0 ≤ m ∧ ex ≤ e ≤ E ∧ m ≤ K * 2 ^ (- e)
    ∧ 2 * Z.abs (m * 2 ^ (e - ex) * D - N) ≤ 3 * 2 ^ (e - ex) * D
    ∧ binary_round_aux 53 1024 false mx ex lx = float_of m e.
Proof.
  intros HK HE He Hm Hle Hlt HD Hloc. unfold binary_round_aux.
  destruct (shr_fexp 53 1024 mx ex lx) as [mrs1 e1] eqn:H1.
  apply (shr_fexp_spec K E _ _ _ _ _ N D) in H1
    as (He1 & _ & [Hm1 Hle1] & Hlt1 & Hloc1); try done.
  destruct (round_nearest_even_bounds (shr_m mrs1) (loc_of_shr_record mrs1))
    as [[Hr1 Hr2] Hr3].
  assert (0 < 2 ^ (e1 - ex)) as HG1 by (apply Z.pow_pos_nonneg; lia).
  assert (0 < 2 ^ (e1 - ex) * D) as HGD by nia.
  pose proof (round_nearest_even_near mrs1 N _ HGD Hloc1) as Hnear.
  set (m1 := round_nearest_even (shr_m mrs1) (loc_of_shr_record mrs1)) in *.
  assert (m1 ≤ K * 2 ^ (- e1)) as Hm1'.
  { destruct (loc_of_shr_record mrs1) eqn:Hl.
    - rewrite Hr3 by done. done.
    - assert (shr_m mrs1 < K * 2 ^ (- e1)) by (by apply Hlt1). lia. }
  destruct (shr_fexp 53 1024 m1 e1 loc_Exact) as [mrs2 e2] eqn:H2.
  apply (shr_fexp_spec K E _ _ _ _ _ m1 1) in H2
    as (He2 & Hm2 & [Hm2' Hle2] & _ & _); try done; try lia;
    [|unfold shr_locates; simpl; lia].
  exists (shr_m mrs2), e2.
  assert (0 < 2 ^ (e2 - e1)) as HG2 by (apply Z.pow_pos_nonneg; lia).
  assert (2 ^ (e2 - ex) = 2 ^ (e1 - ex) * 2 ^ (e2 - e1)) as HG.
  { rewrite <-Z.pow_add_r by lia. f_equal. lia. }
  split_and!; try done; try lia.
  - rewrite HG.
    pose proof (Z.div_mod m1 (2 ^ (e2 - e1)) ltac:(lia)) as Hdm.
    pose proof (Z.mod_pos_bound m1 (2 ^ (e2 - e1)) HG2) as Hrho.
    rewrite <-Hm2 in Hdm.
    set (G1 := 2 ^ (e1 - ex)) in *. set (G2 := 2 ^ (e2 - e1)) in *.
    set (rho := m1 mod G2) in *. set (m2 := shr_m mrs2) in *.
    assert (m2 * (G1 * G2) * D - N = (m1 * (G1 * D) - N) - rho * (G1 * D)) as ->
      by (rewrite Hdm; ring).
    assert (0 ≤ rho * (G1 * D) ≤ (G2 - 1) * (G1 * D)) by nia.
    replace (m1 * (G1 * D)) with (m1 * (G1 * D)) in * by done.
    assert (G1 * D ≤ G1 * G2 * D) by nia.
    replace (G1 * G2 * D) with (G2 * (G1 * D)) in * by ring.
    set (X := G1 * D) in *. lia.
  - unfold float_of. destruct (shr_m mrs2) as [|p|p] eqn:Hp; [done| |lia].
    destruct (Z.leb_spec e2 (1024 - 53)); [done|lia].
Qed.

(** The quotient of two positive integers, the first not above the second:
    a float [m * 2^e] at most one, with [e <= -52], off from the exact
    quotient by three halves of [2^e] at most. *)
Lemma SFdiv_spec a b :
  (a ≤ b)%positive →
  ∃ m e, 0 ≤ m ∧ e ≤ -52 ∧ m ≤ 2 ^ (- e)
    ∧ 2 * Z.abs (m * Z.pos b - Z.pos a * 2 ^ (- e)) ≤ 3 * Z.pos b
    ∧ SFdiv 53 1024 (S754_finite false a 0) (S754_finite false b 0)
      = float_of m e.
Proof.
  intros Hab. unfold SFdiv, SFdiv_core_binary.
  rewrite !Z.add_0_r, Z.sub_0_r.
  destruct (Zdigits2_bounds a) as [Ha1 Ha2].
  destruct (Zdigits2_bounds b) as [Hb1 Hb2].
  simpl Zdigits2.
  set (da := Z.pos (digits2_pos a)) in *. set (db := Z.pos (digits2_pos b)) in *.
  assert (da ≤ db) as Hd.
  { destruct (Z.le_gt_cases da db) as [|Hgt]; [done|]. exfalso.
    assert (2 ^ db ≤ 2 ^ (da - 1)) by (apply Z.pow_le_mono_r; lia). lia. }
  set (e0 := Z.min (fexp 53 1024 (da - db)) 0).
  assert (e0 ≤ -53) as He0 by (subst e0; unfold fexp, emin; lia).
  destruct (0 - e0) as [|s|s] eqn:Hs; [lia| |lia].
  rewrite Z.shiftl_mul_pow2 by lia.
  assert (0 < 2 ^ Z.pos s) as Hps by (apply Z.pow_pos_nonneg; lia).
  pose proof (Z_div_mod (Z.pos a * 2 ^ Z.pos s) (Z.pos b) ltac:(lia)) as Hdiv.
  destruct (Z.div_eucl (Z.pos a * 2 ^ Z.pos s) (Z.pos b)) as [q r].
  destruct Hdiv as [Hqr Hr]. simpl xorb.
  replace (Z.pos s) with (- e0) in * by lia.
  assert (0 ≤ q) by nia.
  destruct (binary_round_aux_spec 1 (-52) q e0 (new_location (Z.pos b) r)
              (Z.pos a * 2 ^ (- e0)) (Z.pos b))
    as (m & e & Hm & He & Hle & Herr & ->); try lia; try nia.
  { intros Hl%new_location_exact. nia. }
  { apply new_location_locates; lia. }
  exists m, e. split_and!; try done; try lia.
  assert (0 < 2 ^ (e - e0)) as HG by (apply Z.pow_pos_nonneg; lia).
  assert (0 < 2 ^ (- e)) as HB by (apply Z.pow_pos_nonneg; lia).
  assert (2 ^ (- e0) = 2 ^ (e - e0) * 2 ^ (- e)) as Hsplit.
  { rewrite <-Z.pow_add_r by lia. f_equal. lia. }
  rewrite Hsplit in Herr.
  set (G := 2 ^ (e - e0)) in *. set (B := 2 ^ (- e)) in *.
  replace (m * G * Z.pos b - Z.pos a * (G * B))
    with (G * (m * Z.pos b - Z.pos a * B)) in Herr by ring.
  rewrite Z.abs_mul, (Z.abs_eq G) in Herr by lia. nia.
Qed.

Lemma SFmul_spec m e :
  0 ≤ m → e ≤ -52 → m ≤ 2 ^ (- e) →
  ∃ mP eP, 0 ≤ mP ∧ e ≤ eP ≤ -46 ∧ mP ≤ 100 * 2 ^ (- eP)
    ∧ 2 * Z.abs (mP * 2 ^ (eP - e) - 100 * m) ≤ 3 * 2 ^ (eP - e)
    ∧ float_mul_int (float_of m e) 100 = float_of mP eP.
Proof.
  intros Hm He Hle. destruct m as [|p|p]; [| |lia].
  - exists 0, e. rewrite Z.sub_diag. simpl. split_and!; try done; lia.
  - unfold float_mul_int, float_of, float_of_int, SFmul. simpl xorb.
    rewrite Pos2Z.inj_mul.
    destruct (binary_round_aux_spec 100 (-46) (Z.pos p * 100) (e + 0) loc_Exact
                (100 * Z.pos p) 1)
      as (mP & eP & HmP & HeP & HleP & Herr & ->); try done; try lia.
    { rewrite Z.add_0_r. nia. }
    { unfold shr_locates. simpl. lia. }
    exists mP, eP. rewrite Z.add_0_r, !Z.mul_1_r in *.
    split_and!; try done; lia.
Qed.

Lemma round_half_even_near m e :
  0 ≤ m → e ≤ 0 →
  2 * Z.abs (round_half_even m e * 2 ^ (- e) - m) ≤ 2 ^ (- e).
Proof.
  intros Hm He. unfold round_half_even.
  destruct e as [|p|p]; [simpl; lia|lia|].
  change (- Z.neg p) with (Z.pos p).
  assert (0 < 2 ^ Z.pos p) as Hp by (apply Z.pow_pos_nonneg; lia).
  pose proof (Z.div_mod m (2 ^ Z.pos p) ltac:(lia)) as Hdm.
  pose proof (Z.mod_pos_bound m (2 ^ Z.pos p) Hp) as Hr.
  set (d := 2 ^ Z.pos p) in *.
  set (q := m / d) in *. set (r := m mod d) in *.
  destruct (Z.compare_spec (2 * r) d); [destruct (Z.even q)| |]; nia.
Qed.

Lemma py_round_float_of m e :
  0 ≤ m → py_round (float_of m e) = Ok (round_half_even m e).
Proof.
  intros Hm. destruct m as [|p|p]; [|done|lia]. simpl. f_equal.
  unfold round_half_even. destruct e as [|q|q]; try done.
  rewrite Z.div_0_l, Z.mod_0_l by (apply Z.pow_nonzero; lia).
  destruct (Z.compare_spec (2 * 0) (2 ^ Z.pos q)); try done.
  assert (0 < 2 ^ Z.pos q) by (apply Z.pow_pos_nonneg; lia). lia.
Qed.

Lemma round_half_even_le K m e :
  0 ≤ K → 0 ≤ m → e ≤ 0 → m ≤ K * 2 ^ (- e) →
  0 ≤ round_half_even m e ≤ K.
Proof.
  intros HK Hm He Hle. unfold round_half_even.
  destruct e as [|p|p]; [simpl in *; lia|lia|].
  change (- Z.neg p) with (Z.pos p) in Hle.
  assert (0 < 2 ^ Z.pos p) as Hp by (apply Z.pow_pos_nonneg; lia).
  pose proof (Z.div_mod m (2 ^ Z.pos p) ltac:(lia)) as Hdm.
  pose proof (Z.mod_pos_bound m (2 ^ Z.pos p) Hp) as Hr.
  set (q := m / 2 ^ Z.pos p) in *. set (r := m mod 2 ^ Z.pos p) in *.
  assert (0 ≤ q) by (apply Z.div_pos; lia).
  assert (q ≤ K) by nia.
  destruct (Z.compare_spec (2 * r) (2 ^ Z.pos p)); [destruct (Z.even q)| |];
    try lia; nia.
Qed.

(** The three roundings of the score, put together: [m / B] is the float
    quotient of [a] by [b], [mP / A] the float product by 100, [n] the
    integer it is rounded to; [B = H * A]. *)
Lemma score_roundings (a b m mP n A H : Z) :
  0 < b < 2 ^ 40 → 2 ^ 46 ≤ A → 0 < H → 2 ^ 52 ≤ H * A →
  2 * Z.abs (m * b - a * (H * A)) ≤ 3 * b →
  2 * Z.abs (mP * H - 100 * m) ≤ 3 * H →
  2 * Z.abs (n * A - mP) ≤ A →
  2 * Z.abs (100 * a - n * b) ≤ b.
Proof.
  intros Hb HA HH HB E1 E2 E3.
  set (T := 100 * a - n * b).
  assert (2 * (H * A) * T
          = 100 * (2 * (a * (H * A)) - 2 * (m * b))
            + b * (200 * m - 2 * (mP * H))
            + H * b * (2 * mP - 2 * (n * A))) as HT by (subst T; ring).
  assert (Z.abs (100 * (2 * (a * (H * A)) - 2 * (m * b))) ≤ 300 * b) as D1
    by lia.
  assert (Z.abs (b * (200 * m - 2 * (mP * H))) ≤ b * (3 * H)) as D2.
  { rewrite Z.abs_mul, (Z.abs_eq b) by lia.
    apply Z.mul_le_mono_nonneg_l; lia. }
  assert (Z.abs (H * b * (2 * mP - 2 * (n * A))) ≤ H * b * A) as D3.
  { rewrite Z.abs_mul, (Z.abs_eq (H * b)) by (apply Z.mul_nonneg_nonneg; lia).
    apply Z.mul_le_mono_nonneg_l; [apply Z.mul_nonneg_nonneg; lia|lia]. }
  assert (2 * (H * A) * Z.abs T ≤ 300 * b + b * (3 * H) + H * b * A) as Hbound.
  { replace (2 * (H * A) * Z.abs T) with (Z.abs (2 * (H * A) * T)).
    - rewrite HT. pose proof (Z.abs_triangle
        (100 * (2 * (a * (H * A)) - 2 * (m * b)) + b * (200 * m - 2 * (mP * H)))
        (H * b * (2 * mP - 2 * (n * A)))).
      pose proof (Z.abs_triangle
        (100 * (2 * (a * (H * A)) - 2 * (m * b)))
        (b * (200 * m - 2 * (mP * H)))).
      lia.
    - rewrite Z.abs_mul, (Z.abs_eq (2 * (H * A))); [done|lia]. }
  destruct (Z.le_gt_cases (2 * Z.abs T) b) as [|Hgt]; [done|]. exfalso.
  assert (H * A * (b + 1) ≤ H * A * (2 * Z.abs T)) as F1
    by (apply Z.mul_le_mono_nonneg_l; lia).
  assert (H * (64 * b) ≤ H * A) as F2.
  { apply Z.mul_le_mono_nonneg_l; [lia|].
    assert (2 ^ 40 * 64 = 2 ^ 46) by done. lia. }
  assert (300 * 2 ^ 40 * 8 ≤ 2 ^ 52) as F3 by done.
  clear E1 E2 E3 D1 D2 D3 HT.
  replace (H * A * (b + 1)) with (H * A * b + H * A) in F1 by ring.
  replace (H * A * (2 * Z.abs T)) with (2 * (H * A) * Z.abs T) in F1 by ring.
  replace (b * (3 * H)) with (3 * (H * b)) in Hbound by ring.
  replace (H * b * A) with (H * A * b) in Hbound by ring.
  replace (H * (64 * b)) with (64 * (H * b)) in F2 by ring.
  set (B := H * A) in *. set (Hb' := H * b) in *. set (Bb := B * b) in *.
  set (BT := 2 * B * Z.abs T) in *. lia.
Qed.

(** The score of [a] out of [b]: no exception, an integer from 0 to 100,
    and, for [b] below [2^40], one that is nearest to [100 * a / b]. *)
Lemma score_of_spec a b :
  0 ≤ a ≤ b → 0 < b →
  ∃ n, score_of a b = Ok n ∧ 0 ≤ n ≤ 100
    ∧ (b < 2 ^ 40 → 2 * Z.abs (100 * a - n * b) ≤ b).
Proof.
  intros Hab Hb. unfold score_of, int_truediv.
  destruct (Z.eqb_spec b 0) as [|_]; [lia|].
  destruct b as [|pb|pb]; try lia. destruct a as [|pa|pa]; try lia.
  { exists 0. split; [done|]. lia. }
  cbn [float_of_int].
  destruct (SFdiv_spec pa pb ltac:(lia)) as (m & e & Hm & He & Hle & E1 & ->).
  assert (match float_of m e with
          | S754_infinity _ => Raise OverflowError
          | q => Ok q
          end = Ok (float_of m e)) as -> by (by destruct m).
  unfold mbind, result_bind, mret, result_ret.
  destruct (SFmul_spec m e Hm He Hle) as (mP & eP & HmP & HeP & HleP & E2 & ->).
  rewrite py_round_float_of by done.
  pose proof (round_half_even_near mP eP HmP ltac:(lia)) as E3.
  pose proof (round_half_even_le 100 mP eP ltac:(lia) HmP ltac:(lia) HleP) as Hn.
  set (n := round_half_even mP eP) in *.
  exists n. split; [done|]. split; [done|]. intros Hb40.
  assert (2 ^ 46 ≤ 2 ^ (- eP)) as HA by (apply Z.pow_le_mono_r; lia).
  assert (0 < 2 ^ (eP - e)) as HH by (apply Z.pow_pos_nonneg; lia).
  assert (2 ^ (- e) = 2 ^ (eP - e) * 2 ^ (- eP)) as HB.
  { rewrite <-Z.pow_add_r by lia. f_equal. lia. }
  assert (2 ^ 52 ≤ 2 ^ (- e)) as HB52 by (apply Z.pow_le_mono_r; lia).
  apply (score_roundings _ _ m mP n (2 ^ (- eP)) (2 ^ (eP - e))); lia.
Qed.

Lemma score_of_all b : 0 < b → score_of b b = Ok 100.
Proof.
  intros Hb. destruct b as [|p|p]; try lia.
  unfold score_of, int_truediv. simpl Z.eqb. cbv iota.
  assert (SFdiv 53 1024 (float_of_int (Z.pos p)) (float_of_int (Z.pos p))
          = S754_finite false 4503599627370496 (-52)) as ->; [|done].
  unfold float_of_int, SFdiv, SFdiv_core_binary.
  rewrite !Z.add_0_r, (Z.sub_diag (Zdigits2 _)).
  change (Z.min (fexp 53 1024 0) (0 - 0)) with (-53).
  change (0 - 0 - -53) with 53. cbv iota.
  rewrite Z.shiftl_mul_pow2 by lia.
  rewrite (Z.mul_comm (Z.pos p)).
  assert (Z.div_eucl (2 ^ 53 * Z.pos p) (Z.pos p) = (2 ^ 53, 0)) as ->.
  { pose proof (Z.div_mul (2 ^ 53) (Z.pos p) ltac:(lia)) as Hq.
    pose proof (Z.mod_mul (2 ^ 53) (Z.pos p) ltac:(lia)) as Hr.
    unfold Z.div, Z.modulo in Hq, Hr.
    destruct (Z.div_eucl (2 ^ 53 * Z.pos p) (Z.pos p)) as [q r].
    by subst. }
  unfold new_location, new_location_even, new_location_odd. simpl Z.eqb.
  by destruct (Z.even (Z.pos p)).
Qed.

(** An integer within one half of [N / d] is the one that rounding half to
    even gives, unless [N / d] is half way between two integers. *)
Lemma nearest_half_even_unique N d n :
  0 < d → 2 * Z.abs (N - n * d) ≤ d → 2 * (N mod d) ≠ d →
  n = nearest_half_even N d.
Proof.
  intros Hd Hn Htie. unfold nearest_half_even.
  pose proof (Z.div_mod N d ltac:(lia)) as Hdm.
  pose proof (Z.mod_pos_bound N d Hd) as Hr.
  set (q := N / d) in *. set (r := N mod d) in *.
  destruct (Z.compare_spec (2 * r) d); [done| |]; nia.
Qed.

End FloatTheory.

(** * Sorting, dictionaries *)

Section SortedTheory.
Context {A : Type} (le : A → A → bool).
Hypothesis le_total : ∀ x y, le x y = true ∨ le y x = true.
Hypothesis le_trans : ∀ x y z, le x y = true → le y z = true → le x z = true.

Lemma insert_sorted_perm x l : insert_sorted le x l ≡ₚ x :: l.
Proof.
  induction l as [|y l IH]; simpl; [done|].
  destruct (le x y); [done|]. rewrite IH. apply Permutation_swap.
Qed.

Lemma sorted_perm l : sorted le l ≡ₚ l.
Proof.
  induction l as [|x l IH]; simpl; [done|].
  by rewrite insert_sorted_perm, IH.
Qed.

Lemma insert_sorted_sorted x l :
  StronglySorted (λ a b, le a b = true) l →
  StronglySorted (λ a b, le a b = true) (insert_sorted le x l).
Proof.
  induction 1 as [|y l Hl IH Hy]; simpl; [repeat constructor|].
  destruct (le x y) eqn:Hxy.
  - constructor; [by constructor|]. constructor; [done|].
    eapply Forall_impl; [exact Hy|]. intros z Hz. by eapply le_trans.
  - constructor; [done|]. rewrite insert_sorted_perm. constructor; [|done].
    destruct (le_total x y); congruence.
Qed.

Lemma sorted_sorted l : StronglySorted (λ a b, le a b = true) (sorted le l).
Proof.
  induction l as [|x l IH]; simpl; [constructor|]. by apply insert_sorted_sorted.
Qed.

End SortedTheory.

Lemma str_le_total a b : str_le a b = true ∨ str_le b a = true.
Proof.
  revert b. induction a as [|x a IH]; intros [|y b]; simpl; auto.
  case_codepoint; auto; lia.
Qed.

Lemma str_le_trans a b c :
  str_le a b = true → str_le b c = true → str_le a c = true.
Proof.
  revert b c. induction a as [|x a IH]; intros [|y b] [|z c]; simpl; try done.
  destruct (N.ltb_spec x y), (N.ltb_spec y z), (N.ltb_spec x z); try done; try lia;
    destruct (N.eqb_spec x y), (N.eqb_spec y z), (N.eqb_spec x z); try done; try lia.
  apply IH.
Qed.

Lemma str_le_antisym a b : str_le a b = true → str_le b a = true → a = b.
Proof.
  revert b. induction a as [|x a IH]; intros [|y b]; simpl; try done.
  destruct (N.ltb_spec x y), (N.ltb_spec y x); try done; try lia;
    destruct (N.eqb_spec x y), (N.eqb_spec y x); try done; try lia.
  intros ??. subst. f_equal. by apply IH.
Qed.

Lemma count_ge_total x y : count_ge x y = true ∨ count_ge y x = true.
Proof. unfold count_ge. destruct (Nat.leb_spec y.2 x.2), (Nat.leb_spec x.2 y.2); auto; lia. Qed.

Lemma count_ge_trans x y z :
  count_ge x y = true → count_ge y z = true → count_ge x z = true.
Proof. unfold count_ge. rewrite !Nat.leb_le. lia. Qed.

Create HintDb order.
#[local] Hint Resolve str_le_total str_le_trans count_ge_total count_ge_trans
  : order.

(** The sorted list of a set does not depend on the order in which the set
    is listed. *)
Lemma sorted_str_unique (l1 l2 : list str) :
  l1 ≡ₚ l2 → sorted str_le l1 = sorted str_le l2.
Proof.
  intros Hp.
  apply (StronglySorted_unique_strong (λ a b : str, str_le a b = true)).
  - intros ?? _ _ ??. by apply str_le_antisym.
  - apply sorted_sorted; eauto with order.
  - apply sorted_sorted; eauto with order.
  - by rewrite !sorted_perm.
Qed.

(** ** Dictionaries *)

Lemma dict_get_set d k v k' default :
  dict_get (dict_set d k v) k' default =
  if decide (k = k') then v else dict_get d k' default.
Proof.
  induction d as [|[k0 v0] d IH]; simpl.
  - destruct (decide (k = k')); done.
  - destruct (decide (k0 = k)) as [->|Hne]; simpl.
    + destruct (decide (k = k')); done.
    + rewrite IH. destruct (decide (k0 = k')) as [->|]; [|done].
      by rewrite decide_False.
Qed.

Lemma keys_dict_set d k v :
  keys (dict_set d k v) = if decide (k ∈ keys d) then keys d else keys d ++ [k].
Proof.
  unfold keys. induction d as [|[k0 v0] d IH]; csimpl; [done|].
  destruct (decide (k0 = k)) as [->|Hne]; csimpl.
  - rewrite decide_True by constructor. done.
  - rewrite IH. destruct (decide (k ∈ d.*1)).
    + rewrite decide_True by (by constructor). done.
    + rewrite decide_False; [done|]. rewrite elem_of_cons. by intros [?|?].
Qed.

Lemma dict_set_new d k v : k ∉ keys d → dict_set d k v = d ++ [(k, v)].
Proof.
  unfold keys. induction d as [|[k0 v0] d IH]; csimpl; [done|].
  rewrite elem_of_cons. intros Hk.
  rewrite decide_False by naive_solver. f_equal. apply IH. naive_solver.
Qed.

Lemma dict_of_items_nodup items : NoDup (keys items) → dict_of_items items = items.
Proof.
  unfold dict_of_items.
  assert (∀ d, NoDup (keys (d ++ items)) →
               foldl (λ d kv, dict_set d kv.1 kv.2) d items = d ++ items) as H.
  { induction items as [|[k v] items IH]; intros d Hd; simpl.
    - by rewrite app_nil_r.
    - unfold keys in Hd. rewrite fmap_app, NoDup_app in Hd.
      destruct Hd as (Hd1 & Hd2 & Hd3).
      rewrite dict_set_new.
      + rewrite IH; [by rewrite <-app_assoc|].
        rewrite <-app_assoc. unfold keys. rewrite fmap_app. apply NoDup_app. done.
      + intros Hk. apply (Hd2 k Hk). simpl. constructor. }
  intros Hn. by apply (H []).
Qed.

Lemma dict_get_elem d k v default :
  NoDup (keys d) → (k, v) ∈ d → dict_get d k default = v.
Proof.
  unfold keys. induction d as [|[k0 v0] d IH]; csimpl; [by intros _ ?%elem_of_nil|].
  rewrite NoDup_cons, elem_of_cons. intros [Hk0 Hd] [[= <- <-]|Hin].
  - by rewrite decide_True.
  - rewrite decide_False; [by apply IH|].
    intros ->. apply Hk0. apply list_elem_of_fmap. by exists (k, v).
Qed.

Lemma dict_get_lookup d k :
  k ∈ keys d → (k, dict_get d k 0) ∈ d.
Proof.
  unfold keys. induction d as [|[k0 v0] d IH]; csimpl; [by intros ?%elem_of_nil|].
  destruct (decide (k0 = k)) as [->|Hne]; [constructor|].
  rewrite !elem_of_cons. intros [?|?]; [done|]. right. by apply IH.
Qed.

Lemma count_snoc k ws w :
  count k (ws ++ [w]) = (count k ws + if decide (k = w) then 1 else 0)%nat.
Proof.
  unfold count. rewrite filter_app, length_app. f_equal.
  rewrite filter_cons. by destruct (decide (k = w)).
Qed.

Lemma count_words_snoc ws w :
  count_words (ws ++ [w]) =
  dict_set (count_words ws) w (dict_get (count_words ws) w 0 + 1).
Proof. unfold count_words. by rewrite foldl_app. Qed.

(** The dictionary of the counts: one entry for each word of the list, the
    number of times the word stands in it. *)
Lemma count_words_spec ws :
  NoDup (keys (count_words ws))
  ∧ (∀ k, k ∈ keys (count_words ws) ↔ k ∈ ws)
  ∧ (∀ k, dict_get (count_words ws) k 0 = count k ws).
Proof.
  induction ws as [|w ws (Hnd & Hk & Hc)] using rev_ind.
  { split; [constructor|]. split; [|done]. intros k. split; by intros ?%elem_of_nil. }
  rewrite count_words_snoc. split; [|split].
  - rewrite keys_dict_set. destruct (decide _) as [|Hw]; [done|].
    apply NoDup_app. split; [done|]. split; [|apply NoDup_singleton].
    intros k Hk' ->%list_elem_of_singleton. done.
  - intros k. rewrite keys_dict_set, elem_of_app, list_elem_of_singleton.
    destruct (decide _) as [Hw|Hw]; rewrite ?elem_of_app, ?list_elem_of_singleton, Hk;
      [|done].
    split; [auto|]. intros [?| ->]; [done|]. by apply Hk.
  - intros k. rewrite dict_get_set, count_snoc, Hc.
    destruct (decide (w = k)) as [->|]; [by rewrite decide_True|].
    rewrite decide_False by done. by rewrite Hc, Nat.add_0_r.
Qed.

(** * The analysis *)

Section AnalyzerTheory.
Variable U : UnicodeData.

Lemma top_keys_nodup ws n :
  NoDup (keys (take n (sorted count_ge (count_words ws)))).
Proof.
  unfold keys. rewrite fmap_take.
  eapply sublist_NoDup; [|apply sublist_take].
  rewrite sorted_perm. apply count_words_spec.
Qed.

Lemma count_words_elem ws k v :
  (k, v) ∈ count_words ws → k ∈ ws ∧ v = count k ws.
Proof.
  destruct (count_words_spec ws) as (Hnd & Hk & Hc). intros Hin. split.
  - apply Hk. unfold keys. apply list_elem_of_fmap. by exists (k, v).
  - rewrite <-Hc. symmetry. by apply dict_get_elem.
Qed.

Lemma count_words_length ws :
  length (count_words ws) = size (list_to_set ws : gset str).
Proof.
  destruct (count_words_spec ws) as (Hnd & Hk & _).
  assert ((list_to_set ws : gset str) = list_to_set (keys (count_words ws))) as ->.
  { apply set_eq. intros k. by rewrite !elem_of_list_to_set, Hk. }
  rewrite size_list_to_set by done. unfold keys. by rewrite length_fmap.
Qed.

Lemma StronglySorted_weaken {A} (R1 R2 : A → A → Prop) l :
  (∀ x y, R1 x y → R2 x y) → StronglySorted R1 l → StronglySorted R2 l.
Proof.
  intros HR. induction 1 as [|x l Hl IH Hx]; constructor; [done|].
  eapply Forall_impl; [exact Hx|]. intros y. apply HR.
Qed.

Lemma top_of_spec ws :
  Forall (λ kv, kv.1 ∈ ws ∧ kv.2 = count kv.1 ws) (top_of ws)
  ∧ length (top_of ws) ≤ 10
  ∧ length (top_of ws) = 10 `min` size (list_to_set ws : gset str)
  ∧ StronglySorted (λ x y, y.2 ≤ x.2) (top_of ws)
  ∧ NoDup (keys (top_of ws))
  ∧ (∀ w, w ∈ ws → w ∉ keys (top_of ws) →
          Forall (λ kv, count w ws ≤ kv.2) (top_of ws)).
Proof.
  unfold top_of. set (l := sorted count_ge (count_words ws)).
  assert (l ≡ₚ count_words ws) as Hp by apply sorted_perm.
  assert (StronglySorted (λ x y, y.2 ≤ x.2) l) as Hs.
  { eapply StronglySorted_weaken; [|apply (sorted_sorted count_ge);
      eauto with order].
    intros x y. unfold count_ge. by rewrite Nat.leb_le. }
  split_and!.
  - apply Forall_forall. intros [k v] Hin. simpl.
    apply count_words_elem. rewrite <-Hp. by eapply subseteq_take.
  - rewrite length_take. lia.
  - by rewrite length_take, Hp, count_words_length.
  - rewrite <-(take_drop 10 l) in Hs. by apply StronglySorted_app_1_l in Hs.
  - apply top_keys_nodup.
  - intros w Hw Hnot. apply Forall_forall. intros kv Hkv.
    assert ((w, count w ws) ∈ l) as Hin.
    { rewrite Hp. destruct (count_words_spec ws) as (_ & Hk & Hc).
      rewrite <-Hc. apply dict_get_lookup. by apply Hk. }
    rewrite <-(take_drop 10 l) in Hin, Hs. apply elem_of_app in Hin as [Hin|Hin].
    + exfalso. apply Hnot. unfold keys. apply list_elem_of_fmap.
      by exists (w, count w ws).
    + apply (StronglySorted_app_1_elem_of _ _ _ _ _ Hs Hkv Hin).
Qed.

Lemma analyze_match_empty O resume_text job_text :
  token_set U job_text = ∅ →
  analyze_match U O resume_text job_text = Ok empty_result.
Proof.
  intros He. unfold analyze_match. fold (token_set U job_text).
  by rewrite decide_True.
Qed.

(** What [analyze_match] returns when the job text has a token. *)
Lemma analyze_match_nonempty O resume_text job_text :
  token_set U job_text ≠ ∅ →
  ∃ n, score_of (len (token_set U job_text ∩ token_set U resume_text))
         (len (token_set U job_text)) = Ok n
    ∧ (0 ≤ n ≤ 100)%Z
    ∧ ((len (token_set U job_text) < 2 ^ 40)%Z →
       (2 * Z.abs (100 * len (token_set U job_text ∩ token_set U resume_text)
                   - n * len (token_set U job_text))
        ≤ len (token_set U job_text))%Z)
    ∧ analyze_match U O resume_text job_text =
      Ok {| match_score := n;
            overlap := sorted str_le
              (elements (token_set U job_text ∩ token_set U resume_text));
            missing := sorted str_le
              (elements (token_set U job_text ∖ token_set U resume_text));
            top_job_keywords :=
              take 10 (sorted count_ge (count_words (tokenize U job_text))) |}.
Proof.
  intros Hne. unfold analyze_match.
  fold (token_set U job_text) (token_set U resume_text).
  rewrite decide_False by done.
  set (jd := token_set U job_text) in *. set (res := token_set U resume_text).
  destruct (score_of_spec (len (jd ∩ res)) (len jd)) as (n & Hn & Hr & Hnear).
  { unfold len. assert (size (jd ∩ res) ≤ size jd); [|lia].
    apply subseteq_size, intersection_subseteq_l. }
  { unfold len. assert (size jd ≠ 0); [|lia]. by intros ?%size_empty_inv%leibniz_equiv. }
  exists n. split; [done|]. split; [done|]. split; [done|].
  rewrite Hn. unfold mbind, result_bind, mret, result_ret. f_equal.
  rewrite dict_of_items_nodup by apply top_keys_nodup.
  rewrite (sorted_str_unique (enum O (jd ∩ res)) (elements (jd ∩ res)))
    by apply enum_perm.
  rewrite (sorted_str_unique (enum O (jd ∖ res)) (elements (jd ∖ res)))
    by apply enum_perm.
  done.
Qed.

Lemma analyze_match_order O1 O2 resume_text job_text :
  analyze_match U O1 resume_text job_text =
  analyze_match U O2 resume_text job_text.
Proof.
  destruct (decide (token_set U job_text = ∅)) as [He|Hne].
  - by rewrite !analyze_match_empty.
  - destruct (analyze_match_nonempty O1 resume_text job_text Hne) as (n1 & H1 & _ & _ & ->).
    destruct (analyze_match_nonempty O2 resume_text job_text Hne) as (n2 & H2 & _ & _ & ->).
    rewrite H1 in H2. by simplify_eq.
Qed.

Lemma sorted_elements_spec (X : gset str) :
  StronglySorted (λ a b, str_le a b = true) (sorted str_le (elements X))
  ∧ NoDup (sorted str_le (elements X))
  ∧ ∀ w, w ∈ sorted str_le (elements X) ↔ w ∈ X.
Proof.
  split; [apply sorted_sorted; eauto with order|].
  split.
  - rewrite sorted_perm. apply NoDup_elements.
  - intros w. by rewrite sorted_perm, elem_of_elements.
Qed.

End AnalyzerTheory.

(** * The model at work *)

Section Examples.
Variable U : UnicodeData.

(** Punctuation separates; a digit or an underscore spoils the word it is
    in; stopwords and single letters go. *)
Example tokenize_ascii :
  tokenize U (py "Python3 c3po sql_server ab-cd x yz. The END")
  = [py "ab"; py "cd"; py "yz"; py "end"].
Proof. vm_compute. reflexivity. Qed.

(** "cafe au lait" with an acute accent on the e: the accented letter is a
    word character and no ASCII letter, so the word it ends is dropped. *)
Example tokenize_accent :
  tokenize ucd_excerpt [99; 97; 102; 233; 32; 97; 117; 32; 108; 97; 105; 116]%N
  = [py "au"; py "lait"].
Proof. vm_compute. reflexivity. Qed.

(** "Istanbul Kelvin" written with U+0130 and U+212A: the capital I with a
    dot becomes an i and a combining dot, which separates; the Kelvin sign
    becomes the letter k. *)
Example tokenize_dotted_I :
  tokenize ucd_excerpt
    [304; 115; 116; 97; 110; 98; 117; 108; 32; 8490; 101; 108; 118; 105; 110]%N
  = [py "stanbul"; py "kelvin"].
Proof. vm_compute. reflexivity. Qed.

(** A capital sigma becomes a final sigma at the end of a word only. *)
Example lower_sigma :
  lower ucd_excerpt [927; 916; 927; 931; 32; 931; 913]%N
  = [959; 948; 959; 962; 32; 963; 945]%N.
Proof. vm_compute. reflexivity. Qed.

(** Scores at a tie: 12.5 and 37.5 go to the even integer, 57.5 and 54.5 do
    not. *)
Example score_of_ties :
  score_of 1 8 = Ok 12%Z ∧ score_of 3 8 = Ok 38%Z
  ∧ score_of 23 40 = Ok 57%Z ∧ score_of 109 200 = Ok 55%Z.
Proof. split_and!; vm_compute; reflexivity. Qed.

(** Words that stand equally often keep the order of their first
    occurrence. *)
Example top_of_stable :
  top_of (py <$> ["bb"; "aa"; "bb"; "cc"; "aa"]%string)
  = [(py "bb", 2); (py "aa", 2); (py "cc", 1)].
Proof. vm_compute. reflexivity. Qed.

End Examples.

(** * The claims *)

Section Claims.
Variable U : UnicodeData.
Variable O : SetOrder.

(** ** The tokenizer *)

(** C1, as the specification words it, fails: a digit or an underscore does
    not separate.  The letters next to one are part of a word that is not
    made of letters only, and the pattern passes the whole word over:
    "Python3" and "SQL_Server" give no token, where the runs of letters
    would be "python", "sql" and "server". *)
Lemma tokenize_digit_no_separator :
  tokenize ucd_excerpt (py "Python3 developer, SQL_Server admin")
    = [py "developer"; py "admin"]
  ∧ spec_tokenize ucd_excerpt (py "Python3 developer, SQL_Server admin")
    = [py "python"; py "developer"; py "sql"; py "server"; py "admin"].
Proof. split; vm_compute; reflexivity. Qed.

(** The same text under any Unicode database: the input is ASCII. *)
Lemma tokenize_digit_no_separator_any :
  tokenize U (py "Python3 developer, SQL_Server admin")
    = [py "developer"; py "admin"]
  ∧ spec_tokenize U (py "Python3 developer, SQL_Server admin")
    = [py "python"; py "developer"; py "sql"; py "server"; py "admin"].
Proof. split; vm_compute; reflexivity. Qed.

(** C1, amended: [tokenize] returns, from left to right, the words of the
    lowercased text (the maximal runs of word characters: letters, digits,
    the underscore, alphanumerics outside ASCII) that are made of ASCII
    letters only and have two of them at least, without the stopwords.
    Every character that is not a word character separates; a word with a
    digit or an underscore in it is dropped whole, as is a word of one
    letter. *)
Theorem tokenize_word_runs text :
  tokenize U text =
  filter (λ w, w ∉ STOPWORDS)
    (filter is_token (runs (is_word U) (lower U text))).
Proof. unfold tokenize. by rewrite findall_words. Qed.

(** C6: every token is a string of lowercase ASCII letters, two at least,
    that is no stopword; the empty text has no token.  (Under the
    hypothesis on the Unicode database that lowercase mappings are
    lowercase.) *)
Theorem tokenize_tokens text :
  lowercase_closed U →
  Forall (λ w, lowercase_word w = true ∧ 2 ≤ length w ∧ w ∉ STOPWORDS)
    (tokenize U text)
  ∧ tokenize U [] = [].
Proof.
  intros HU. split; [|done].
  unfold tokenize. rewrite findall_words. apply Forall_forall. intros w Hw.
  apply list_elem_of_filter in Hw as [Hstop Hw].
  apply list_elem_of_filter in Hw as [[Hl Hlen] Hw].
  split; [|done].
  pose proof (Forall_runs (fixed_by_lower U) (is_word U) _
                (lower_from_closed U text [] HU)) as Hruns.
  rewrite Forall_forall in Hruns. specialize (Hruns w Hw).
  unfold lowercase_word. apply forallb_forall. intros c Hc.
  unfold letters_only in Hl. rewrite forallb_forall in Hl.
  rewrite Forall_forall in Hruns.
  apply (fixed_letter_lower U); [|by apply Hl].
  by apply Hruns, list_elem_of_In.
Qed.

(** C10: the tokens of a text are the tokens of its lowercased form.
    (Under the same hypothesis on the Unicode database.) *)
Theorem tokenize_lower text :
  lowercase_closed U → tokenize U text = tokenize U (lower U text).
Proof. intros HU. unfold tokenize. by rewrite lower_idempotent. Qed.

(** ** The analysis *)

(** C2, the range: the score is an integer from 0 to 100, whatever the two
    texts. *)
Lemma analyze_match_score_range resume_text job_text :
  ∃ r, analyze_match U O resume_text job_text = Ok r
    ∧ (0 ≤ match_score r ≤ 100)%Z.
Proof.
  destruct (decide (token_set U job_text = ∅)) as [He|Hne].
  - exists empty_result. by rewrite analyze_match_empty.
  - destruct (analyze_match_nonempty U O resume_text job_text Hne)
      as (n & _ & Hn & _ & ->). eauto.
Qed.

(** C2, as the specification words it, fails: the code does not round
    100 * |overlap| / |jobSet| half to even.  It rounds the quotient to a
    float first and the product by 100 again, and a tie can be lost on the
    way.  With 23 tokens of 40 the exact value is 57.5, the float product
    is just below, and the score is 57, where half to even (and half up)
    gives 58. *)
Lemma score_tie_23_of_40 :
  ∃ r, analyze_match ucd_excerpt canonical_order resume23 job40 = Ok r
    ∧ len (token_set ucd_excerpt job40) = 40%Z
    ∧ len (token_set ucd_excerpt job40 ∩ token_set ucd_excerpt resume23) = 23%Z
    ∧ match_score r = 57%Z
    ∧ nearest_half_even (100 * 23) 40 = 58%Z.
Proof.
  eexists. split; [vm_compute; reflexivity|].
  split_and!; vm_compute; reflexivity.
Qed.

(** The same two texts under any Unicode database and any iteration
    order. *)
Lemma score_tie_23_of_40_any :
  ∃ r, analyze_match U O resume23 job40 = Ok r ∧ match_score r = 57%Z.
Proof.
  rewrite (analyze_match_order U O canonical_order).
  eexists. split; vm_compute; reflexivity.
Qed.

(** C2, amended: when the job text has a token (and fewer than [2^40] of
    them), the score is an integer from 0 to 100 that is nearest to
    100 * |overlap| / |jobSet|: it is off by one half at most.  So it is
    that value rounded half to even, unless the value is half way between
    two integers, where the score is one of the two. *)
Theorem analyze_match_score resume_text job_text :
  token_set U job_text ≠ ∅ →
  (len (token_set U job_text) < 2 ^ 40)%Z →
  ∃ r, analyze_match U O resume_text job_text = Ok r
    ∧ (0 ≤ match_score r ≤ 100)%Z
    ∧ (2 * Z.abs (100 * len (token_set U job_text ∩ token_set U resume_text)
                  - match_score r * len (token_set U job_text))
       ≤ len (token_set U job_text))%Z
    ∧ ((2 * ((100 * len (token_set U job_text ∩ token_set U resume_text))
             `mod` len (token_set U job_text)))%Z
         ≠ len (token_set U job_text) →
       match_score r =
       nearest_half_even
         (100 * len (token_set U job_text ∩ token_set U resume_text))
         (len (token_set U job_text))).
Proof.
  intros Hne Hsize.
  destruct (analyze_match_nonempty U O resume_text job_text Hne)
    as (n & _ & Hn & Hnear & ->).
  eexists. split; [done|]. simpl. specialize (Hnear Hsize).
  split_and!; try done; try lia. intros Htie.
  apply nearest_half_even_unique; [|done|done].
  unfold len. assert (size (token_set U job_text) ≠ 0); [|lia].
  by intros ?%size_empty_inv%leibniz_equiv.
Qed.

(** C3: [analyze_match] returns a result for every pair of texts (no
    exception: the division has a divisor that is not zero, and its
    quotient is a finite float), and when the job text has no token, as
    the empty text, the result is score 0 with nothing in the two lists and
    in the dictionary, whatever the resume. *)
Theorem analyze_match_total resume_text job_text :
  (∃ r, analyze_match U O resume_text job_text = Ok r)
  ∧ (token_set U job_text = ∅ →
     analyze_match U O resume_text job_text = Ok empty_result)
  ∧ analyze_match U O resume_text [] = Ok empty_result.
Proof.
  split; [|split].
  - destruct (decide (token_set U job_text = ∅)) as [He|Hne].
    + rewrite analyze_match_empty by done. eauto.
    + destruct (analyze_match_nonempty U O resume_text job_text Hne)
        as (n & _ & _ & _ & ->). eauto.
  - apply analyze_match_empty.
  - by apply analyze_match_empty.
Qed.

(** C4: [overlap] is the sorted list (in the order of [str], without
    repeats) of the tokens that the job text and the resume share, and
    [missing] that of the tokens of the job text that the resume lacks; no
    token is in both, and together they are the tokens of the job text. *)
Theorem analyze_match_overlap_missing resume_text job_text :
  ∃ r, analyze_match U O resume_text job_text = Ok r
    ∧ StronglySorted (λ a b, str_le a b = true) (overlap r)
    ∧ NoDup (overlap r)
    ∧ (∀ w, w ∈ overlap r ↔
            w ∈ token_set U job_text ∧ w ∈ token_set U resume_text)
    ∧ StronglySorted (λ a b, str_le a b = true) (missing r)
    ∧ NoDup (missing r)
    ∧ (∀ w, w ∈ missing r ↔
            w ∈ token_set U job_text ∧ w ∉ token_set U resume_text)
    ∧ (∀ w, w ∈ overlap r → w ∉ missing r)
    ∧ (∀ w, w ∈ overlap r ∨ w ∈ missing r ↔ w ∈ token_set U job_text).
Proof.
  destruct (decide (token_set U job_text = ∅)) as [He|Hne].
  - exists empty_result. rewrite analyze_match_empty by done. simpl.
    rewrite He.
    split_and!; first [done|
      intros w; rewrite ?elem_of_nil, ?elem_of_empty; tauto|constructor].
  - destruct (analyze_match_nonempty U O resume_text job_text Hne)
      as (n & _ & _ & _ & ->).
    eexists. split; [done|]. simpl.
    destruct (sorted_elements_spec (token_set U job_text ∩ token_set U resume_text))
      as (Ho1 & Ho2 & Ho3).
    destruct (sorted_elements_spec (token_set U job_text ∖ token_set U resume_text))
      as (Hm1 & Hm2 & Hm3).
    split_and!; try done;
      intros w; rewrite ?Ho3, ?Hm3, ?elem_of_intersection, ?elem_of_difference;
      try tauto.
    destruct (decide (w ∈ token_set U resume_text)); tauto.
Qed.

(** C5: each key of [top_job_keywords] is a token of the job text and is
    mapped to the number of times it stands in the token sequence; there
    are at most ten entries (ten, or all the tokens when they are fewer),
    with distinct keys, in an order in which the counts do not increase;
    and no token left out stands more often than one that is in. *)
Theorem analyze_match_top_keywords resume_text job_text :
  ∃ r, analyze_match U O resume_text job_text = Ok r
    ∧ Forall (λ kv, kv.1 ∈ tokenize U job_text
                    ∧ kv.2 = count kv.1 (tokenize U job_text))
        (top_job_keywords r)
    ∧ length (top_job_keywords r) ≤ 10
    ∧ length (top_job_keywords r) = 10 `min` size (token_set U job_text)
    ∧ StronglySorted (λ x y, y.2 ≤ x.2) (top_job_keywords r)
    ∧ NoDup (keys (top_job_keywords r))
    ∧ (∀ w, w ∈ tokenize U job_text → w ∉ keys (top_job_keywords r) →
            Forall (λ kv, count w (tokenize U job_text) ≤ kv.2)
              (top_job_keywords r)).
Proof.
  destruct (decide (token_set U job_text = ∅)) as [He|Hne].
  - exists empty_result. rewrite analyze_match_empty by done. simpl.
    assert (tokenize U job_text = []) as Hnil.
    { destruct (tokenize U job_text) as [|w ws] eqn:E; [done|].
      exfalso. unfold token_set in He. rewrite E in He.
      assert (w ∈ (∅ : gset str)) as Hw; [|by apply elem_of_empty in Hw].
      rewrite <-He. apply elem_of_list_to_set. constructor. }
    rewrite He, Hnil, size_empty.
    split_and!; first [done|simpl; lia|constructor|by intros w ?%elem_of_nil].
  - destruct (analyze_match_nonempty U O resume_text job_text Hne)
      as (n & _ & _ & _ & ->).
    eexists. split; [done|]. simpl. apply top_of_spec.
Qed.

(** C7: the worked example. *)
Theorem analyze_match_example :
  analyze_match U O (py "I know Python and Excel")
    (py "Python Python SQL SQL SQL Excel") =
  Ok {| match_score := 67;
        overlap := [py "excel"; py "python"];
        missing := [py "sql"];
        top_job_keywords := [(py "sql", 3); (py "python", 2); (py "excel", 1)] |}.
Proof.
  rewrite (analyze_match_order U O canonical_order). vm_compute. reflexivity.
Qed.

(** C8: when the resume and the job text have the same set of tokens, and
    it is not empty, the score is 100 and nothing is missing. *)
Theorem analyze_match_same_tokens resume_text job_text :
  token_set U resume_text = token_set U job_text →
  token_set U job_text ≠ ∅ →
  ∃ r, analyze_match U O resume_text job_text = Ok r
    ∧ match_score r = 100%Z ∧ missing r = [].
Proof.
  intros Heq Hne.
  destruct (analyze_match_nonempty U O resume_text job_text Hne)
    as (n & Hn & _ & _ & ->).
  eexists. split; [done|]. simpl. rewrite Heq in *.
  rewrite intersection_idemp_L in Hn.
  rewrite score_of_all in Hn.
  - rewrite difference_diag_L, elements_empty. by simplify_eq.
  - unfold len. assert (size (token_set U job_text) ≠ 0); [|lia].
    by intros ?%size_empty_inv%leibniz_equiv.
Qed.

End Claims.

(** C9: the result depends on the two texts only: two runs, whatever the
    order in which each of them iterates its sets, return the same
    result.  (The function reads no other state and writes none: its model
    has no state to pass.) *)
Theorem analyze_match_deterministic U O1 O2 resume_text job_text :
  analyze_match U O1 resume_text job_text =
  analyze_match U O2 resume_text job_text.
Proof. apply analyze_match_order. Qed.

(** ** Witnesses *)

Lemma tokenize_tokens_witness :
  Forall (λ w, lowercase_word w = true ∧ 2 ≤ length w ∧ w ∉ STOPWORDS)
    (tokenize ucd_excerpt (py "I know Python3, SQL and Excel"))
  ∧ tokenize ucd_excerpt [] = [].
Proof.
  exact (tokenize_tokens ucd_excerpt (py "I know Python3, SQL and Excel")
           ucd_excerpt_closed).
Defined.

Lemma tokenize_lower_witness :
  tokenize ucd_excerpt (py "Senior DATA Engineer") =
  tokenize ucd_excerpt (lower ucd_excerpt (py "Senior DATA Engineer")).
Proof.
  exact (tokenize_lower ucd_excerpt (py "Senior DATA Engineer")
           ucd_excerpt_closed).
Defined.

Lemma stopwords_only_no_token :
  token_set ucd_excerpt (py "The a of, and 42 to_be") = ∅.
Proof. vm_compute. reflexivity. Qed.

Lemma analyze_match_total_witness :
  analyze_match ucd_excerpt canonical_order (py "Python and SQL")
    (py "The a of, and 42 to_be") = Ok empty_result.
Proof.
  exact (proj1 (proj2 (analyze_match_total ucd_excerpt canonical_order
                         (py "Python and SQL") (py "The a of, and 42 to_be")))
           stopwords_only_no_token).
Defined.

Lemma same_tokens_example :
  token_set ucd_excerpt (py "Excel, Python; SQL") =
  token_set ucd_excerpt (py "Python sql SQL excel").
Proof. vm_compute. reflexivity. Qed.

Lemma same_tokens_nonempty :
  token_set ucd_excerpt (py "Python sql SQL excel") ≠ ∅.
Proof. vm_compute. discriminate. Qed.

Lemma analyze_match_same_tokens_witness :
  ∃ r, analyze_match ucd_excerpt canonical_order (py "Excel, Python; SQL")
         (py "Python sql SQL excel") = Ok r
    ∧ match_score r = 100%Z ∧ missing r = [].
Proof.
  exact (analyze_match_same_tokens ucd_excerpt canonical_order
           (py "Excel, Python; SQL") (py "Python sql SQL excel")
           same_tokens_example same_tokens_nonempty).
Defined.

Lemma example_nonempty :
  token_set ucd_excerpt (py "Python Python SQL SQL SQL Excel") ≠ ∅.
Proof. vm_compute. discriminate. Qed.

Lemma example_small :
  (len (token_set ucd_excerpt (py "Python Python SQL SQL SQL Excel"))
   < 2 ^ 40)%Z.
Proof. vm_compute. reflexivity. Qed.

Lemma analyze_match_score_witness :
  ∃ r, analyze_match ucd_excerpt canonical_order (py "I know Python and Excel")
         (py "Python Python SQL SQL SQL Excel") = Ok r
    ∧ (0 ≤ match_score r ≤ 100)%Z
    ∧ (2 * Z.abs (100 * len (token_set ucd_excerpt
                               (py "Python Python SQL SQL SQL Excel")
                             ∩ token_set ucd_excerpt
                                 (py "I know Python and Excel"))
                  - match_score r
                    * len (token_set ucd_excerpt
                             (py "Python Python SQL SQL SQL Excel")))
       ≤ len (token_set ucd_excerpt (py "Python Python SQL SQL SQL Excel")))%Z
    ∧ ((2 * ((100 * len (token_set ucd_excerpt
                           (py "Python Python SQL SQL SQL Excel")
                         ∩ token_set ucd_excerpt
                             (py "I know Python and Excel")))
             `mod` len (token_set ucd_excerpt
                          (py "Python Python SQL SQL SQL Excel"))))%Z
         ≠ len (token_set ucd_excerpt (py "Python Python SQL SQL SQL Excel")) →
       match_score r =
       nearest_half_even
         (100 * len (token_set ucd_excerpt
                       (py "Python Python SQL SQL SQL Excel")
                     ∩ token_set ucd_excerpt (py "I know Python and Excel")))
         (len (token_set ucd_excerpt (py "Python Python SQL SQL SQL Excel")))).
Proof.
  exact (analyze_match_score ucd_excerpt canonical_order
           (py "I know Python and Excel")
           (py "Python Python SQL SQL SQL Excel")
           example_nonempty example_small).
Defined.

(** * Further properties *)

(** ** The tokenizer *)

Section TokenizerMore.
Variable U : UnicodeData.

Lemma tokenize_runs text :
  tokenize U text =
  filter (λ w, w ∉ STOPWORDS) (filter is_token (runs (is_word U) (lower U text))).
Proof. unfold tokenize. by rewrite findall_words. Qed.

(** Only a capital sigma is lowercased by its context. *)
Lemma lower_at_context before after c :
  c ≠ 931%N → lower_at U before after c = lower_at U [] [] c.
Proof. intros Hc. unfold lower_at. by destruct (N.eqb_spec c 931). Qed.

Lemma lower_from_context s before :
  931%N ∉ s → lower_from U before s = s ≫= lower_at U [] [].
Proof.
  revert before. induction s as [|c s IH]; intros before Hs; [done|].
  apply not_elem_of_cons in Hs as [Hc Hs]. cbn [lower_from]. csimpl.
  rewrite (lower_at_context _ _ c) by done. by rewrite IH.
Qed.

Lemma lower_app_sep a c b :
  931%N ∉ a → 931%N ∉ b → (c < 128)%N → is_word U c = false →
  lower U (a ++ c :: b) = lower U a ++ c :: lower U b.
Proof.
  intros Ha Hb Hc Hw. unfold lower.
  rewrite !lower_from_context; try done.
  - rewrite bind_app. csimpl. f_equal.
    assert (lower_at U [] [] c = [c]) as ->; [|done].
    revert Hw. unfold lower_at, is_word, ascii_lower, is_letter.
    destruct (N.ltb_spec c 128); [|lia].
    destruct (N.leb_spec 65 c), (N.leb_spec c 90); simpl; done.
  - rewrite elem_of_app, elem_of_cons. intros [?|[?|?]]; try done. lia.
Qed.

Lemma lower_from_ascii s before :
  Forall (λ c, (c < 128)%N) s → lower_from U before s = ascii_lower <$> s.
Proof.
  intros Hs. revert before. induction Hs as [|c s Hc _ IH]; intros before; [done|].
  cbn [lower_from]. csimpl. rewrite IH. unfold lower_at.
  by destruct (N.ltb_spec c 128); [|lia].
Qed.

Lemma lower_letter_spec c :
  is_lower_letter c = true →
  (c < 128)%N ∧ ascii_lower c = c ∧ is_letter c = true.
Proof.
  unfold is_lower_letter, ascii_lower, is_letter.
  rewrite andb_true_iff, !N.leb_le. intros [??].
  split; [lia|]. split; case_codepoint; simpl; try done; lia.
Qed.

Lemma lower_lowercase_word w : lowercase_word w = true → lower U w = w.
Proof.
  unfold lowercase_word. rewrite forallb_forall. intros Hw. unfold lower.
  rewrite lower_from_ascii.
  - rewrite <-(list_fmap_id w) at 2. apply list_fmap_ext. intros i c Hc.
    apply (lower_letter_spec c), Hw, list_elem_of_In.
    by eapply list_elem_of_lookup_2.
  - apply Forall_forall. intros c Hc.
    by apply (lower_letter_spec c), Hw, list_elem_of_In.
Qed.

(** Every token is a string of lowercase letters, when lowercase mappings
    are lowercase. *)
Lemma tokens_lowercase text :
  lowercase_closed U →
  Forall (λ w, lowercase_word w = true) (tokenize U text).
Proof.
  intros HU. rewrite tokenize_runs. apply Forall_forall.
  intros w Hw. apply list_elem_of_filter in Hw as [_ Hw].
  apply list_elem_of_filter in Hw as [[Hl _] Hw].
  pose proof (Forall_runs (fixed_by_lower U) (is_word U) _
                (lower_from_closed U text [] HU)) as Hruns.
  rewrite Forall_forall in Hruns. specialize (Hruns w Hw).
  unfold lowercase_word. apply forallb_forall. intros c Hc.
  unfold letters_only in Hl. rewrite forallb_forall in Hl.
  rewrite Forall_forall in Hruns.
  apply (fixed_letter_lower U); [|by apply Hl].
  by apply Hruns, list_elem_of_In.
Qed.

Lemma token_set_empty text : token_set U text = ∅ → tokenize U text = [].
Proof.
  unfold token_set. destruct (tokenize U text) as [|w ws]; [done|].
  intros He. assert (w ∈ (∅ : gset str)) as []%elem_of_empty.
  rewrite <-He. apply elem_of_list_to_set. constructor.
Qed.

End TokenizerMore.

(** *** Runs *)

Lemma take_run_app_sep P s1 c s2 :
  P c = false → take_run P (s1 ++ c :: s2) = take_run P s1.
Proof.
  intros Hc. induction s1 as [|d s1 IH]; simpl; [by rewrite Hc|].
  destruct (P d); by f_equal.
Qed.

Lemma drop_run_app_sep P s1 c s2 :
  P c = false → drop_run P (s1 ++ c :: s2) = drop_run P s1 ++ c :: s2.
Proof.
  intros Hc. induction s1 as [|d s1 IH]; simpl; [by rewrite Hc|].
  by destruct (P d).
Qed.

(** A character outside the class ends the runs before it. *)
Lemma runs_app_sep P s1 c s2 :
  P c = false → runs P (s1 ++ c :: s2) = runs P s1 ++ runs P s2.
Proof.
  intros Hc. remember (length s1) as n eqn:Hn. revert s1 Hn.
  induction n as [n IH] using lt_wf_ind. intros [|d s1] ->.
  - simpl. by rewrite Hc.
  - rewrite <-app_comm_cons. destruct (P d) eqn:Hd.
    + rewrite !runs_in by done.
      rewrite take_run_app_sep, drop_run_app_sep by done.
      rewrite <-app_comm_cons. f_equal.
      eapply IH; [|done]. pose proof (drop_run_length P s1). simpl. lia.
    + rewrite !runs_out by done. eapply IH; [|done]. simpl. lia.
Qed.

Lemma runs_ext P Q s :
  Forall (λ c, P c = Q c) s → runs P s = runs Q s.
Proof.
  induction 1 as [|c s Hc Hs IH]; [done|].
  cbn [runs]. rewrite Hc, IH.
  destruct Hs as [|d s Hd _]; [done|]. simpl. by rewrite Hd.
Qed.

Lemma take_run_all P s : forallb P s = true → take_run P s = s.
Proof.
  induction s as [|c s IH]; simpl; [done|].
  destruct (P c); simpl; [|done]. intros ?. f_equal. by apply IH.
Qed.

Lemma drop_run_all P s : forallb P s = true → drop_run P s = [].
Proof.
  induction s as [|c s IH]; simpl; [done|]. by destruct (P c).
Qed.

Lemma runs_all P s : s ≠ [] → forallb P s = true → runs P s = [s].
Proof.
  destruct s as [|c s]; [done|]. intros _ Hs. simpl in Hs.
  apply andb_true_iff in Hs as [Hc Hs].
  rewrite runs_in by done. by rewrite take_run_all, drop_run_all.
Qed.

Lemma ascii_lower_ascii c : (c < 128)%N → (ascii_lower c < 128)%N.
Proof. unfold ascii_lower. case_codepoint; simpl; lia. Qed.

Lemma found_in_order_app ws l s :
  found_in_order ws s → found_in_order ws (l ++ s).
Proof.
  destruct ws as [|w ws]; [done|]. intros (l1 & l2 & -> & Hf).
  exists (l ++ l1), l2. by rewrite <-app_assoc.
Qed.

Lemma found_in_order_filter (Q : str → Prop) `{!∀ w, Decision (Q w)} ws s :
  found_in_order ws s → found_in_order (filter Q ws) s.
Proof.
  revert s. induction ws as [|w ws IH]; intros s; [done|].
  intros (l1 & l2 & -> & Hf). rewrite filter_cons.
  destruct (decide (Q w)).
  - exists l1, l2. split; [done|]. by apply IH.
  - rewrite app_assoc. by apply found_in_order_app, IH.
Qed.

Lemma found_in_order_runs P s : found_in_order (runs P s) s.
Proof.
  remember (length s) as n eqn:Hn. revert s Hn.
  induction n as [n IH] using lt_wf_ind. intros [|c s] ->; [done|].
  destruct (P c) eqn:Hc.
  - rewrite runs_in by done. exists [], (drop_run P s). split.
    + simpl. f_equal. by rewrite <-take_take_run, <-drop_take_run, take_drop.
    + eapply IH; [|done]. pose proof (drop_run_length P s). simpl. lia.
  - rewrite runs_out by done. apply (found_in_order_app _ [c]).
    eapply IH; [|done]. simpl. lia.
Qed.

(** X1: the tokens of an ASCII text do not depend on the Unicode database
    (on the version of Python): within ASCII, lowercase and the word
    characters are fixed. *)
Theorem tokenize_ascii_any_database U1 U2 text :
  Forall (λ c, (c < 128)%N) text → tokenize U1 text = tokenize U2 text.
Proof.
  intros Ht. rewrite !tokenize_runs. unfold lower.
  rewrite !lower_from_ascii by done. do 2 f_equal.
  apply runs_ext, Forall_fmap. eapply Forall_impl; [exact Ht|].
  intros c Hc. simpl. unfold is_word.
  by destruct (N.ltb_spec (ascii_lower c) 128) as [|Hge];
    [|pose proof (ascii_lower_ascii c Hc); lia].
Qed.

(** X2: an ASCII character that is no word character (a space, a line
    break, a punctuation mark) cuts a text in two: the tokens of the whole
    are the tokens of the part before, then those of the part after.  (For
    texts without a capital sigma, the one letter that [lower] treats by
    its context.) *)
Theorem tokenize_separator U a c b :
  931%N ∉ a → 931%N ∉ b → (c < 128)%N → is_word U c = false →
  tokenize U (a ++ c :: b) = tokenize U a ++ tokenize U b.
Proof.
  intros Ha Hb Hc Hw. rewrite !tokenize_runs.
  rewrite lower_app_sep, runs_app_sep by done.
  by rewrite !filter_app.
Qed.

(** X3: a string of two or more lowercase ASCII letters that is no stopword
    is a text with one token, itself, under any Unicode database.  So
    every such string is a token of some text, and the tokens of a token
    are the token. *)
Theorem tokenize_single_word U w :
  lowercase_word w = true → 2 ≤ length w → w ∉ STOPWORDS →
  tokenize U w = [w].
Proof.
  intros Hw Hlen Hstop. rewrite tokenize_runs, lower_lowercase_word by done.
  assert (letters_only w = true) as Hl.
  { unfold lowercase_word, letters_only in *. rewrite forallb_forall in *.
    intros c Hc. by apply (lower_letter_spec c), Hw. }
  rewrite runs_all.
  - rewrite filter_cons, decide_True by done.
    by rewrite filter_nil, filter_cons, decide_True.
  - intros ->. simpl in Hlen. lia.
  - unfold letters_only in Hl. rewrite forallb_forall in *.
    intros c Hc. by apply is_letter_word, Hl.
Qed.

(** X4: the tokens are pieces of the lowercased text: they stand in it one
    after the other, in the order in which they are returned, and no two
    of them overlap. *)
Theorem tokenize_in_order U text :
  found_in_order (tokenize U text) (lower U text).
Proof.
  rewrite tokenize_runs.
  do 2 apply found_in_order_filter. apply found_in_order_runs.
Qed.

(** ** The analysis *)

Lemma score_of_none b : (0 < b)%Z → score_of 0 b = Ok 0%Z.
Proof.
  intros Hb. unfold score_of, int_truediv.
  destruct (Z.eqb_spec b 0) as [|_]; [lia|]. by destruct b.
Qed.

Lemma len_pos (X : gset str) : X ≠ ∅ → (0 < len X)%Z.
Proof.
  intros HX. unfold len. assert (size X ≠ 0); [|lia].
  by intros ?%size_empty_inv%leibniz_equiv.
Qed.

Lemma len_parts (X Y : gset str) : len X = (len (X ∩ Y) + len (X ∖ Y))%Z.
Proof.
  unfold len. rewrite <-Nat2Z.inj_add. f_equal.
  rewrite <-size_union.
  2:{ apply elem_of_disjoint. intros w.
      rewrite elem_of_intersection, elem_of_difference. tauto. }
  f_equal. apply set_eq. intros w.
  rewrite elem_of_union, elem_of_intersection, elem_of_difference.
  destruct (decide (w ∈ Y)); tauto.
Qed.

Lemma sorted_length {A} (le : A → A → bool) l : length (sorted le l) = length l.
Proof. by rewrite sorted_perm. Qed.

Lemma sorted_elements_nil (X : gset str) :
  sorted str_le (elements X) = [] ↔ X = ∅.
Proof.
  split.
  - intros H. apply (f_equal length) in H. rewrite sorted_length in H.
    by apply nil_length_inv, elements_empty_inv, leibniz_equiv in H.
  - intros ->. by rewrite elements_empty.
Qed.

(** An integer nearest to [100 * a / b] does not go down when [a] goes
    up. *)
Lemma nearest_mono (a1 a2 b n1 n2 : Z) :
  (0 < b)%Z → (a1 < a2)%Z →
  (2 * Z.abs (100 * a1 - n1 * b) ≤ b)%Z →
  (2 * Z.abs (100 * a2 - n2 * b) ≤ b)%Z →
  (n1 ≤ n2)%Z.
Proof.
  intros Hb Ha H1 H2.
  destruct (Z.le_gt_cases n1 n2) as [|Hgt]; [done|]. exfalso.
  assert ((n2 + 1) * b ≤ n1 * b)%Z by (apply Z.mul_le_mono_nonneg_r; lia).
  lia.
Qed.

(** *** The stable sort and the dictionary of the counts *)

(** Elements that compare equal keep their order. *)
Lemma insert_sorted_filter {A} (le : A → A → bool) (P : A → Prop)
    `{!∀ x, Decision (P x)} x l :
  (∀ y, P x → P y → le x y = true) →
  filter P (insert_sorted le x l) = filter P (x :: l).
Proof.
  intros Hle. induction l as [|y l IH]; [done|]. simpl.
  destruct (le x y) eqn:Hxy; [done|].
  rewrite (filter_cons _ y), IH, !filter_cons.
  destruct (decide (P x)), (decide (P y)); try done.
  rewrite Hle in Hxy; done.
Qed.

Lemma sorted_filter {A} (le : A → A → bool) (P : A → Prop)
    `{!∀ x, Decision (P x)} l :
  (∀ x y, P x → P y → le x y = true) →
  filter P (sorted le l) = filter P l.
Proof.
  intros Hle. induction l as [|x l IH]; [done|]. simpl.
  rewrite insert_sorted_filter by (intros y; apply Hle).
  by rewrite !filter_cons, IH.
Qed.

Lemma filter_all {A} (P : A → Prop) `{!∀ x, Decision (P x)} l :
  Forall P l → filter P l = l.
Proof.
  induction 1 as [|x l Hx _ IH]; [done|].
  by rewrite filter_cons, decide_True, IH.
Qed.

Lemma keys_foldl_count ws : ∀ d,
  keys (foldl (λ freq_job w, dict_set freq_job w (dict_get freq_job w 0 + 1)) d ws)
  = keys d ++ filter (λ w, w ∉ keys d) (first_seen ws).
Proof.
  induction ws as [|w ws IH]; intros d; simpl; [by rewrite app_nil_r|].
  rewrite IH, keys_dict_set, filter_cons.
  destruct (decide (w ∈ keys d)) as [Hin|Hout]; cbv iota.
  - rewrite decide_False by (intros Hn; exact (Hn Hin)). f_equal.
    rewrite list_filter_filter. apply list_filter_iff. intros x.
    split; [|tauto]. intros Hx. split; [done|]. by intros ->.
  - rewrite decide_True by done. rewrite <-app_assoc. simpl. do 2 f_equal.
    rewrite list_filter_filter. apply list_filter_iff. intros x.
    rewrite elem_of_app, list_elem_of_singleton. tauto.
Qed.

(** The keys of the dictionary of the counts stand in the order in which
    the words are first met. *)
Lemma keys_count_words ws : keys (count_words ws) = first_seen ws.
Proof.
  unfold count_words. rewrite keys_foldl_count. simpl.
  apply filter_all, Forall_forall. intros x _. apply not_elem_of_nil.
Qed.

Lemma keys_filter_count (d : dict) (g : str → nat) c :
  Forall (λ kv, kv.2 = g kv.1) d →
  keys (filter (λ kv, kv.2 = c) d) = filter (λ k, g k = c) (keys d).
Proof.
  unfold keys. induction 1 as [|[k v] d Hkv _ IH]; [done|]. simpl in Hkv.
  csimpl. rewrite !filter_cons. simpl. subst v.
  destruct (decide (g k = c)); csimpl; by rewrite IH.
Qed.

Lemma sum_dict_set d k :
  sum_list_with snd (dict_set d k (dict_get d k 0 + 1))
  = S (sum_list_with snd d).
Proof.
  induction d as [|[k' v'] d IH]; simpl; [done|].
  destruct (decide (k' = k)); simpl; [lia|]. rewrite IH. lia.
Qed.

(** The counts add up to the number of words. *)
Lemma sum_count_words ws : sum_list_with snd (count_words ws) = length ws.
Proof.
  induction ws as [|w ws IH] using rev_ind; [done|].
  rewrite count_words_snoc, sum_dict_set, IH, length_app. simpl. lia.
Qed.

Lemma sum_list_with_take {A} (f : A → nat) n l :
  sum_list_with f (take n l) ≤ sum_list_with f l.
Proof.
  rewrite <-(take_drop n l) at 2. rewrite sum_list_with_app. lia.
Qed.

Lemma top_of_first_seen ws c :
  keys (filter (λ kv, kv.2 = c) (top_of ws))
  `prefix_of` filter (λ w, count w ws = c) (first_seen ws).
Proof.
  unfold top_of.
  rewrite <-keys_count_words.
  rewrite <-(keys_filter_count (count_words ws) (λ k, count k ws)).
  2:{ apply Forall_forall. intros [k v] Hkv. simpl.
      by apply count_words_elem in Hkv as [_ ->]. }
  rewrite <-(sorted_filter count_ge (λ kv, kv.2 = c) (count_words ws)).
  2:{ intros x y Hx Hy. unfold count_ge. apply Nat.leb_le. lia. }
  set (l := sorted count_ge (count_words ws)).
  rewrite <-(take_drop 10 l) at 2. rewrite filter_app.
  unfold keys. rewrite fmap_app. by apply prefix_app_r.
Qed.

Lemma top_of_total ws :
  sum_list_with snd (top_of ws) ≤ length ws
  ∧ (size (list_to_set ws : gset str) ≤ 10 →
     sum_list_with snd (top_of ws) = length ws
     ∧ ∀ w, w ∈ keys (top_of ws) ↔ w ∈ ws).
Proof.
  unfold top_of. set (l := sorted count_ge (count_words ws)).
  assert (l ≡ₚ count_words ws) as Hp by apply sorted_perm.
  assert (sum_list_with snd l = length ws) as Hsum
    by by rewrite Hp, sum_count_words.
  split.
  - rewrite <-Hsum. apply sum_list_with_take.
  - intros Hsmall. rewrite <-count_words_length, <-Hp in Hsmall.
    rewrite take_ge by done. split; [done|]. intros w.
    unfold keys. rewrite Hp. apply count_words_spec.
Qed.

Section AnalyzerMore.
Variable U : UnicodeData.
Variable O : SetOrder.

Lemma enum_sorted (X : gset str) :
  sorted str_le (enum O X) = sorted str_le (elements X).
Proof. apply sorted_str_unique, enum_perm. Qed.

(** X5: when the resume has none of the tokens of the job text, as the
    empty resume, the score is 0, [overlap] is empty and [missing] is the
    sorted list of all the tokens of the job text. *)
Theorem analyze_match_no_overlap resume_text job_text :
  token_set U job_text ∩ token_set U resume_text = ∅ →
  ∃ r, analyze_match U O resume_text job_text = Ok r
    ∧ match_score r = 0%Z ∧ overlap r = []
    ∧ missing r = sorted str_le (enum O (token_set U job_text)).
Proof.
  intros Hd. rewrite enum_sorted.
  destruct (decide (token_set U job_text = ∅)) as [He|Hne].
  - exists empty_result. rewrite analyze_match_empty by done.
    by rewrite He, elements_empty.
  - destruct (analyze_match_nonempty U O resume_text job_text Hne)
      as (n & Hn & _ & _ & ->).
    eexists. split; [done|]. simpl.
    rewrite Hd in *. change (len ∅) with 0%Z in Hn.
    rewrite score_of_none in Hn by by apply len_pos.
    rewrite elements_empty. split_and!; [by simplify_eq|done|].
    do 2 f_equal. apply set_eq. intros w. rewrite elem_of_difference.
    split; [tauto|]. intros Hw. split; [done|]. intros Hr.
    assert (w ∈ (∅ : gset str)) as []%elem_of_empty.
    rewrite <-Hd. by apply elem_of_intersection.
Qed.

(** X6: when the resume has every token of the job text (and the job text
    has one), whatever else it has, the score is 100, nothing is missing
    and [overlap] is the sorted list of all the tokens of the job text. *)
Theorem analyze_match_covered resume_text job_text :
  token_set U job_text ⊆ token_set U resume_text →
  token_set U job_text ≠ ∅ →
  ∃ r, analyze_match U O resume_text job_text = Ok r
    ∧ match_score r = 100%Z ∧ missing r = []
    ∧ overlap r = sorted str_le (enum O (token_set U job_text)).
Proof.
  intros Hsub Hne. rewrite enum_sorted.
  destruct (analyze_match_nonempty U O resume_text job_text Hne)
    as (n & Hn & _ & _ & ->).
  eexists. split; [done|]. simpl.
  assert (token_set U job_text ∩ token_set U resume_text = token_set U job_text)
    as Hi by (apply set_eq; intros w; rewrite elem_of_intersection;
              split; [tauto|]; intros ?; split; [done|by apply Hsub]).
  assert (token_set U job_text ∖ token_set U resume_text = ∅) as Hm.
  { apply set_eq. intros w. rewrite elem_of_difference, elem_of_empty.
    split; [|done]. intros [H1 H2]. by apply H2, Hsub. }
  rewrite Hi, Hm in *. rewrite score_of_all in Hn by by apply len_pos.
  rewrite elements_empty. by simplify_eq.
Qed.

(** X7: for a job text with fewer than 200 distinct tokens (and one at
    least), the score is 100 exactly when nothing is missing, and 0
    exactly when nothing overlaps. *)
Theorem analyze_match_small_job resume_text job_text :
  token_set U job_text ≠ ∅ →
  size (token_set U job_text) < 200 →
  ∃ r, analyze_match U O resume_text job_text = Ok r
    ∧ (match_score r = 100%Z ↔ missing r = [])
    ∧ (match_score r = 0%Z ↔ overlap r = []).
Proof.
  intros Hne Hsmall.
  destruct (analyze_match_nonempty U O resume_text job_text Hne)
    as (n & Hn & _ & Hnear & ->).
  eexists. split; [done|]. simpl. rewrite !sorted_elements_nil.
  set (jd := token_set U job_text) in *. set (res := token_set U resume_text) in *.
  pose proof (len_parts jd res) as Hparts.
  pose proof (len_pos jd Hne) as Hpos.
  assert (len jd < 200)%Z as H200 by (unfold len; lia).
  assert (0 ≤ len (jd ∩ res))%Z as Ho by (unfold len; lia).
  assert (0 ≤ len (jd ∖ res))%Z as Hm by (unfold len; lia).
  specialize (Hnear ltac:(lia)).
  assert (∀ X : gset str, X = ∅ ↔ len X = 0%Z) as Hlen0.
  { intros X. unfold len. split; [by intros ->|]. intros H.
    apply leibniz_equiv, size_empty_inv. lia. }
  rewrite !Hlen0. split.
  - split.
    + intros ->. lia.
    + intros Hz. rewrite Hz, Z.add_0_r in Hparts. rewrite <-Hparts in *.
      rewrite score_of_all in Hn by done. by simplify_eq.
  - split.
    + intros ->. lia.
    + intros Hz. rewrite Hz in Hn. rewrite score_of_none in Hn by done.
      by simplify_eq.
Qed.

(** X8: a resume that has all the tokens of another one (and more) does
    not score lower against the same job text (of fewer than [2^40]
    distinct tokens); its [overlap] has the entries of the other one, and
    its [missing] has no entry that the other one lacks. *)
Theorem analyze_match_monotone resume1 resume2 job_text :
  token_set U resume1 ⊆ token_set U resume2 →
  (len (token_set U job_text) < 2 ^ 40)%Z →
  ∃ r1 r2, analyze_match U O resume1 job_text = Ok r1
    ∧ analyze_match U O resume2 job_text = Ok r2
    ∧ (match_score r1 ≤ match_score r2)%Z
    ∧ (∀ w, w ∈ overlap r1 → w ∈ overlap r2)
    ∧ (∀ w, w ∈ missing r2 → w ∈ missing r1).
Proof.
  intros Hsub Hsize.
  destruct (decide (token_set U job_text = ∅)) as [He|Hne].
  { exists empty_result, empty_result. by rewrite !analyze_match_empty. }
  destruct (analyze_match_nonempty U O resume1 job_text Hne)
    as (n1 & Hn1 & _ & Hnear1 & ->).
  destruct (analyze_match_nonempty U O resume2 job_text Hne)
    as (n2 & Hn2 & _ & Hnear2 & ->).
  eexists _, _. split; [done|]. split; [done|]. simpl.
  specialize (Hnear1 Hsize). specialize (Hnear2 Hsize).
  set (jd := token_set U job_text) in *.
  assert (jd ∩ token_set U resume1 ⊆ jd ∩ token_set U resume2) as Hcap.
  { intros w. rewrite !elem_of_intersection.
    intros [??]. split; [done|]. by apply Hsub. }
  split_and!.
  - pose proof (subseteq_size _ _ Hcap) as Hle.
    destruct (decide (size (jd ∩ token_set U resume1)
                      = size (jd ∩ token_set U resume2))) as [Heq|Hlt].
    + unfold len in Hn1, Hn2. rewrite Heq, Hn2 in Hn1. simplify_eq. lia.
    + eapply (nearest_mono _ _ (len jd)); [by apply len_pos| |done|done].
      unfold len. lia.
  - intros w Hw. apply sorted_elements_spec. apply sorted_elements_spec in Hw.
    by apply Hcap.
  - intros w Hw. apply sorted_elements_spec. apply sorted_elements_spec in Hw.
    revert Hw. rewrite !elem_of_difference. intros [H1 H2].
    split; [done|]. intros H3. by apply H2, Hsub.
Qed.

(** X9: [overlap] is the same list when the two texts change places. *)
Theorem analyze_match_overlap_sym text1 text2 :
  ∃ r1 r2, analyze_match U O text1 text2 = Ok r1
    ∧ analyze_match U O text2 text1 = Ok r2
    ∧ overlap r1 = overlap r2.
Proof.
  assert (∀ a b, ∃ r, analyze_match U O a b = Ok r
            ∧ overlap r = sorted str_le
                (elements (token_set U b ∩ token_set U a))) as H.
  { intros a b. destruct (decide (token_set U b = ∅)) as [He|Hne].
    - exists empty_result. rewrite analyze_match_empty by done.
      by rewrite He, intersection_empty_l_L, elements_empty.
    - destruct (analyze_match_nonempty U O a b Hne) as (n & _ & _ & _ & ->).
      by eexists. }
  destruct (H text1 text2) as (r1 & H1 & Ho1).
  destruct (H text2 text1) as (r2 & H2 & Ho2).
  exists r1, r2. split; [done|]. split; [done|].
  by rewrite Ho1, Ho2, (intersection_comm_L (token_set U text2)).
Qed.

(** X10: the score can be read off the two lists: [overlap] and [missing]
    have together as many entries as the job text has distinct tokens,
    and the score is a nearest integer to the percentage of the entries
    of [overlap] among them (for fewer than [2^40] tokens). *)
Theorem analyze_match_lists_score resume_text job_text :
  (len (token_set U job_text) < 2 ^ 40)%Z →
  ∃ r, analyze_match U O resume_text job_text = Ok r
    ∧ length (overlap r) + length (missing r) = size (token_set U job_text)
    ∧ (2 * Z.abs (100 * Z.of_nat (length (overlap r))
                  - match_score r
                    * Z.of_nat (length (overlap r) + length (missing r))%nat)
       ≤ Z.of_nat (length (overlap r) + length (missing r))%nat)%Z.
Proof.
  intros Hsize.
  destruct (decide (token_set U job_text = ∅)) as [He|Hne].
  { exists empty_result. rewrite analyze_match_empty by done.
    rewrite He. split; [done|]. split; [done|]. simpl. lia. }
  destruct (analyze_match_nonempty U O resume_text job_text Hne)
    as (n & _ & _ & Hnear & ->).
  eexists. split; [done|]. simpl. specialize (Hnear Hsize).
  rewrite !sorted_length.
  pose proof (len_parts (token_set U job_text) (token_set U resume_text))
    as Hparts.
  unfold len, size, set_size in *. simpl in *. split; lia.
Qed.

(** X11: words that stand equally often in the job text come in
    [top_job_keywords] in the order in which they are first met in it:
    the keys with a given count are the first ones, in this order, of the
    tokens with that count. *)
Theorem top_keywords_first_seen resume_text job_text c :
  ∃ r, analyze_match U O resume_text job_text = Ok r
    ∧ keys (filter (λ kv, kv.2 = c) (top_job_keywords r))
      `prefix_of` filter (λ w, count w (tokenize U job_text) = c)
                    (first_seen (tokenize U job_text)).
Proof.
  destruct (decide (token_set U job_text = ∅)) as [He|Hne].
  - exists empty_result. rewrite analyze_match_empty by done.
    split; [done|]. apply prefix_nil.
  - destruct (analyze_match_nonempty U O resume_text job_text Hne)
      as (n & _ & _ & _ & ->).
    eexists. split; [done|]. apply top_of_first_seen.
Qed.

(** X12: the counts of [top_job_keywords] add up to the number of tokens of
    the job text at most, and to that number when the job text has ten
    distinct tokens or fewer: then every token is a key. *)
Theorem top_keywords_total resume_text job_text :
  ∃ r, analyze_match U O resume_text job_text = Ok r
    ∧ sum_list_with snd (top_job_keywords r) ≤ length (tokenize U job_text)
    ∧ (size (token_set U job_text) ≤ 10 →
       sum_list_with snd (top_job_keywords r) = length (tokenize U job_text)
       ∧ ∀ w, w ∈ keys (top_job_keywords r) ↔ w ∈ tokenize U job_text).
Proof.
  destruct (decide (token_set U job_text = ∅)) as [He|Hne].
  - exists empty_result. rewrite analyze_match_empty by done.
    rewrite (token_set_empty _ _ He). simpl. split_and!; try done.
  - destruct (analyze_match_nonempty U O resume_text job_text Hne)
      as (n & _ & _ & _ & ->).
    eexists. split; [done|]. apply top_of_total.
Qed.

(** X13: [top_job_keywords] is read off the job text alone: it is the same
    whatever the resume. *)
Theorem top_keywords_of_job_only resume1 resume2 job_text :
  ∃ r1 r2, analyze_match U O resume1 job_text = Ok r1
    ∧ analyze_match U O resume2 job_text = Ok r2
    ∧ top_job_keywords r1 = top_job_keywords r2.
Proof.
  destruct (decide (token_set U job_text = ∅)) as [He|Hne].
  { exists empty_result, empty_result. by rewrite !analyze_match_empty. }
  destruct (analyze_match_nonempty U O resume1 job_text Hne)
    as (n1 & _ & _ & _ & ->).
  destruct (analyze_match_nonempty U O resume2 job_text Hne)
    as (n2 & _ & _ & _ & ->).
  by eexists _, _.
Qed.

(** X14: when the exact percentage of the tokens of the job text that the
    resume has is an integer, the score is that integer: the two roundings
    of the floating point evaluation never move it (for fewer than [2^40]
    distinct tokens). *)
Theorem analyze_match_exact_percentage resume_text job_text k :
  token_set U job_text ≠ ∅ →
  (len (token_set U job_text) < 2 ^ 40)%Z →
  (100 * len (token_set U job_text ∩ token_set U resume_text)
   = k * len (token_set U job_text))%Z →
  ∃ r, analyze_match U O resume_text job_text = Ok r ∧ match_score r = k.
Proof.
  intros Hne Hsize Hk.
  destruct (analyze_match_nonempty U O resume_text job_text Hne)
    as (n & _ & _ & Hnear & ->).
  eexists. split; [done|]. simpl. specialize (Hnear Hsize).
  pose proof (len_pos _ Hne) as Hpos. rewrite Hk in Hnear.
  set (b := len (token_set U job_text)) in *.
  destruct (Z.lt_trichotomy n k) as [Hlt|[->|Hgt]]; [|done|].
  - assert ((n + 1) * b ≤ k * b)%Z by (apply Z.mul_le_mono_nonneg_r; lia). lia.
  - assert ((k + 1) * b ≤ n * b)%Z by (apply Z.mul_le_mono_nonneg_r; lia). lia.
Qed.

(** ** The analysis view *)

(** X15: the view says "Good match!" instead of chips exactly when the
    resume has every token of the job text; this is also so when the job
    text has no token at all, where the score is 0. *)
Theorem show_missing_good_match resume_text job_text :
  ∃ r, analyze_match U O resume_text job_text = Ok r
    ∧ (show_missing (missing r) = write (py "Good match!")
       ↔ token_set U job_text ⊆ token_set U resume_text)
    ∧ (token_set U job_text = ∅ →
       match_score r = 0%Z
       ∧ show_missing (missing r) = write (py "Good match!")).
Proof.
  assert (∀ l, show_missing l = write (py "Good match!") ↔ l = []) as Hshow
    by (intros [|??]; done).
  destruct (decide (token_set U job_text = ∅)) as [He|Hne].
  { exists empty_result. rewrite analyze_match_empty by done.
    split; [done|]. rewrite He. split; [|done]. split; [|done].
    intros _ w. by rewrite elem_of_empty. }
  destruct (analyze_match_nonempty U O resume_text job_text Hne)
    as (n & _ & _ & _ & ->).
  eexists. split; [done|]. simpl. split; [|done].
  rewrite Hshow. split.
  - intros Hnil w Hw. destruct (decide (w ∈ token_set U resume_text)); [done|].
    assert (w ∈ sorted str_le
              (elements (token_set U job_text ∖ token_set U resume_text))) as Hin
      by by apply sorted_elements_spec, elem_of_difference.
    rewrite Hnil in Hin. by apply elem_of_nil in Hin.
  - intros Hsub.
    assert (token_set U job_text ∖ token_set U resume_text = ∅) as ->.
    { apply set_eq. intros w. rewrite elem_of_difference, elem_of_empty.
      split; [|done]. intros [H1 H2]. by apply H2, Hsub. }
    by rewrite elements_empty.
Qed.

Lemma lowercase_word_no_markup k :
  lowercase_word k = true → filter (.∈ markup) k = [].
Proof.
  unfold lowercase_word. rewrite forallb_forall. intros Hk.
  induction k as [|c k IH]; [done|].
  rewrite filter_cons, decide_False, IH; [done| |].
  - intros d Hd. apply Hk. by right.
  - specialize (Hk c ltac:(by left)). revert Hk.
    unfold is_lower_letter, markup. rewrite andb_true_iff, !N.leb_le.
    rewrite !elem_of_cons, elem_of_nil. lia.
Qed.

Lemma keyword_chips_filter ks :
  Forall (λ k, lowercase_word k = true) ks →
  filter (.∈ markup) (keyword_chips ks)
  = mjoin (replicate (length ks) (py "<''><>")).
Proof.
  unfold keyword_chips. induction 1 as [|k ks Hk _ IH]; [done|].
  change (filter (.∈ markup) (keyword_chip k ++ mjoin (keyword_chip <$> ks))
          = py "<''><>" ++ mjoin (replicate (length ks) (py "<''><>"))).
  rewrite filter_app, IH. f_equal.
  unfold keyword_chip. rewrite !filter_app.
  rewrite (lowercase_word_no_markup k Hk). vm_compute. reflexivity.
Qed.

(** X16: the chips are shown as HTML that is not escaped, and no keyword
    can bring markup of its own: the markup characters of the HTML of the
    top keywords and of the missing keywords (fifteen at most) are those
    of the tags of the chips, one pair of tags for each keyword.  (When
    lowercase mappings are lowercase.) *)
Theorem keyword_chips_markup resume_text job_text :
  lowercase_closed U →
  ∃ r, analyze_match U O resume_text job_text = Ok r
    ∧ filter (.∈ markup) (keyword_chips (keys (top_job_keywords r)))
      = mjoin (replicate (length (top_job_keywords r)) (py "<''><>"))
    ∧ filter (.∈ markup) (keyword_chips (take 15 (missing r)))
      = mjoin (replicate (length (missing r) `min` 15) (py "<''><>")).
Proof.
  intros HU. pose proof (tokens_lowercase U job_text HU) as Hlow.
  rewrite Forall_forall in Hlow.
  destruct (decide (token_set U job_text = ∅)) as [He|Hne].
  { exists empty_result. by rewrite analyze_match_empty. }
  destruct (analyze_match_nonempty U O resume_text job_text Hne)
    as (n & _ & _ & _ & ->).
  eexists. split; [done|]. simpl. split.
  - rewrite keyword_chips_filter.
    + unfold keys. by rewrite length_fmap.
    + apply Forall_forall. intros k Hk. apply Hlow.
      unfold keys in Hk. apply list_elem_of_fmap in Hk as ([k' v] & -> & Hkv).
      destruct (top_of_spec (tokenize U job_text)) as (Htop & _).
      rewrite Forall_forall in Htop. by apply (Htop (k', v)).
  - rewrite keyword_chips_filter.
    + by rewrite length_take, Nat.min_comm.
    + apply Forall_forall. intros k Hk. apply Hlow.
      apply subseteq_take in Hk.
      apply (sorted_elements_spec _), elem_of_difference in Hk as [Hk _].
      by apply elem_of_list_to_set in Hk.
Qed.

End AnalyzerMore.

(** ** The text of a PDF *)

Section PdfTheory.
Context {Page : Type} (extract_text : Page → option str).

Lemma py_or_empty x : py_or x [] = default [] x.
Proof. by destruct x as [[|c s]|]. Qed.

Lemma extract_text_from : ∀ pages text,
  foldl (λ text page, text ++ py_or (extract_text page) []) text pages
  = text ++ mjoin (omap extract_text pages).
Proof.
  induction pages as [|p pages IH]; intros text; simpl; [by rewrite app_nil_r|].
  rewrite IH, py_or_empty, <-app_assoc.
  by destruct (extract_text p).
Qed.

(** X17: the text of a document is the texts of its pages, in the order of
    the pages, with nothing between them (a page without text adds
    nothing); so the text of two documents put together is the two texts
    put together. *)
Theorem extract_text_from_pdf_pages pages pages' :
  extract_text_from_pdf extract_text pages = mjoin (omap extract_text pages)
  ∧ extract_text_from_pdf extract_text (pages ++ pages')
    = extract_text_from_pdf extract_text pages
      ++ extract_text_from_pdf extract_text pages'.
Proof.
  unfold extract_text_from_pdf. rewrite !extract_text_from. simpl.
  split; [done|]. by rewrite omap_app, join_app.
Qed.

End PdfTheory.

(** No separator stands between two pages: a word that ends a page and the
    word that begins the next one are read as one word. *)
Example page_break_joins_words :
  tokenize ucd_excerpt
    (extract_text_from_pdf id [Some (py "Python and data"); None;
                               Some (py "base design")])
  = [py "python"; py "database"; py "design"].
Proof. vm_compute. reflexivity. Qed.

(** ** The text of [build_pdf] *)

Lemma clean_text_lookup text i :
  clean_text text !! i =
  (λ c, if (c <? 256)%N then c else 63%N) <$> text !! i.
Proof.
  unfold clean_text, latin1_decode, latin1_encode_replace.
  rewrite !list_lookup_fmap. destruct (text !! i) as [c|]; [|done]. simpl.
  f_equal. destruct (N.ltb_spec c 256) as [Hc|Hc].
  - destruct (Byte.of_N c) as [b|] eqn:E; simpl.
    + by apply Byte.to_of_N.
    + apply Byte.of_N_None_iff in E. lia.
  - assert (Byte.of_N c = None) as -> by (apply Byte.of_N_None_iff; lia).
    done.
Qed.

Lemma clean_text_fmap text :
  clean_text text = (λ c, if (c <? 256)%N then c else 63%N) <$> text.
Proof.
  apply list_eq. intros i. by rewrite clean_text_lookup, list_lookup_fmap.
Qed.

(** X18: whatever the text, the cleaned text can be encoded in Latin-1 (the
    strict encoding gives the bytes of the lenient one); it has the
    length of the text, and at each place the character of the text, or a
    question mark where that character is above U+00FF. *)
Theorem clean_text_encodable text :
  latin1_encode (clean_text text) = Some (latin1_encode_replace text)
  ∧ length (clean_text text) = length text
  ∧ ∀ i c, text !! i = Some c →
      clean_text text !! i = Some (if (c <? 256)%N then c else 63%N).
Proof.
  split_and!.
  - unfold latin1_encode, clean_text, latin1_decode.
    apply mapM_Some. apply Forall2_fmap_l, Forall_Forall2_diag, Forall_forall.
    intros b _. apply Byte.of_to_N.
  - unfold clean_text, latin1_decode, latin1_encode_replace.
    by rewrite !length_fmap.
  - intros i c Hc. by rewrite clean_text_lookup, Hc.
Qed.

(** X19: cleaning leaves a text as it is exactly when the text is Latin-1;
    cleaning twice is cleaning once; and bytes that are decoded and
    encoded again are the same bytes. *)
Theorem clean_text_latin1 text :
  (clean_text text = text ↔ Forall (λ c, (c < 256)%N) text)
  ∧ clean_text (clean_text text) = clean_text text
  ∧ ∀ data, latin1_encode_replace (latin1_decode data) = data.
Proof.
  split_and!.
  - rewrite clean_text_fmap. split.
    + intros H. rewrite <-H. apply Forall_fmap, Forall_forall. intros c _.
      simpl. destruct (N.ltb_spec c 256); lia.
    + intros H. rewrite <-(list_fmap_id text) at 2.
      apply list_fmap_ext. intros i c Hc.
      rewrite Forall_forall in H.
      specialize (H c ltac:(by eapply list_elem_of_lookup_2)).
      simpl in *. by destruct (N.ltb_spec c 256); [|lia].
  - rewrite !clean_text_fmap, <-list_fmap_compose.
    apply list_fmap_ext. intros i c _. simpl.
    by destruct (N.ltb_spec c 256) as [Hc|Hc];
      [rewrite (proj2 (N.ltb_lt _ _) Hc)|].
  - intros data. unfold latin1_encode_replace, latin1_decode.
    rewrite <-list_fmap_compose. rewrite <-(list_fmap_id data) at 2.
    apply list_fmap_ext. intros i b _. simpl. by rewrite Byte.of_to_N.
Qed.

(** "naïve café", then two Chinese characters and a key emoji. *)
Example clean_text_replaces :
  clean_text [110; 97; 239; 118; 101; 32; 99; 97; 102; 233; 32;
              20013; 25991; 32; 128273]%N
  = [110; 97; 239; 118; 101; 32; 99; 97; 102; 233; 32; 63; 63; 32; 63]%N.
Proof. vm_compute. reflexivity. Qed.

(** ** Witnesses *)

Lemma ascii_text_example :
  Forall (λ c, (c < 128)%N) (py "Senior C++/Python developer (3 years)").
Proof. by repeat constructor. Qed.

Lemma tokenize_ascii_any_database_witness :
  tokenize ucd_excerpt (py "Senior C++/Python developer (3 years)") =
  tokenize ucd_ascii (py "Senior C++/Python developer (3 years)").
Proof.
  exact (tokenize_ascii_any_database ucd_excerpt ucd_ascii
           (py "Senior C++/Python developer (3 years)") ascii_text_example).
Defined.

Lemma no_sigma_before : 931%N ∉ py "Senior Data".
Proof. apply (bool_decide_unpack _). vm_compute. exact I. Qed.

Lemma no_sigma_after : 931%N ∉ py "ML engineer".
Proof. apply (bool_decide_unpack _). vm_compute. exact I. Qed.

Lemma slash_ascii : (47 < 128)%N.
Proof. reflexivity. Qed.

Lemma slash_separates : is_word ucd_excerpt 47 = false.
Proof. reflexivity. Qed.

Lemma tokenize_separator_witness :
  tokenize ucd_excerpt (py "Senior Data" ++ 47%N :: py "ML engineer") =
  tokenize ucd_excerpt (py "Senior Data")
  ++ tokenize ucd_excerpt (py "ML engineer").
Proof.
  exact (tokenize_separator ucd_excerpt (py "Senior Data") 47
           (py "ML engineer") no_sigma_before no_sigma_after slash_ascii
           slash_separates).
Defined.

Lemma python_lowercase : lowercase_word (py "python") = true.
Proof. reflexivity. Qed.

Lemma python_long : 2 ≤ length (py "python").
Proof. simpl. lia. Qed.

Lemma python_no_stopword : py "python" ∉ STOPWORDS.
Proof. apply (bool_decide_unpack _). vm_compute. exact I. Qed.

Lemma tokenize_single_word_witness :
  tokenize ucd_excerpt (py "python") = [py "python"].
Proof.
  exact (tokenize_single_word ucd_excerpt (py "python") python_lowercase
           python_long python_no_stopword).
Defined.

Lemma empty_resume_no_overlap :
  token_set ucd_excerpt (py "Python and SQL") ∩ token_set ucd_excerpt [] = ∅.
Proof. vm_compute. reflexivity. Qed.

Lemma analyze_match_no_overlap_witness :
  ∃ r, analyze_match ucd_excerpt canonical_order [] (py "Python and SQL") = Ok r
    ∧ match_score r = 0%Z ∧ overlap r = []
    ∧ missing r =
      sorted str_le
        (enum canonical_order (token_set ucd_excerpt (py "Python and SQL"))).
Proof.
  exact (analyze_match_no_overlap ucd_excerpt canonical_order []
           (py "Python and SQL") empty_resume_no_overlap).
Defined.

Lemma job_covered :
  token_set ucd_excerpt (py "Python and SQL")
  ⊆ token_set ucd_excerpt (py "I know SQL, Excel and Python").
Proof. apply (bool_decide_unpack _). vm_compute. exact I. Qed.

Lemma job_nonempty : token_set ucd_excerpt (py "Python and SQL") ≠ ∅.
Proof. vm_compute. discriminate. Qed.

Lemma job_small : size (token_set ucd_excerpt (py "Python and SQL")) < 200.
Proof. vm_compute. lia. Qed.

Lemma job_below : (len (token_set ucd_excerpt (py "Python and SQL")) < 2 ^ 40)%Z.
Proof. vm_compute. reflexivity. Qed.

Lemma analyze_match_covered_witness :
  ∃ r, analyze_match ucd_excerpt canonical_order
         (py "I know SQL, Excel and Python") (py "Python and SQL") = Ok r
    ∧ match_score r = 100%Z ∧ missing r = []
    ∧ overlap r =
      sorted str_le
        (enum canonical_order (token_set ucd_excerpt (py "Python and SQL"))).
Proof.
  exact (analyze_match_covered ucd_excerpt canonical_order
           (py "I know SQL, Excel and Python") (py "Python and SQL")
           job_covered job_nonempty).
Defined.

Lemma analyze_match_small_job_witness :
  ∃ r, analyze_match ucd_excerpt canonical_order (py "Excel and Python")
         (py "Python and SQL") = Ok r
    ∧ (match_score r = 100%Z ↔ missing r = [])
    ∧ (match_score r = 0%Z ↔ overlap r = []).
Proof.
  exact (analyze_match_small_job ucd_excerpt canonical_order
           (py "Excel and Python") (py "Python and SQL")
           job_nonempty job_small).
Defined.

Lemma resume_grows :
  token_set ucd_excerpt (py "Excel and Python")
  ⊆ token_set ucd_excerpt (py "I know SQL, Excel and Python").
Proof. apply (bool_decide_unpack _). vm_compute. exact I. Qed.

Lemma analyze_match_monotone_witness :
  ∃ r1 r2,
    analyze_match ucd_excerpt canonical_order (py "Excel and Python")
      (py "Python and SQL") = Ok r1
    ∧ analyze_match ucd_excerpt canonical_order
        (py "I know SQL, Excel and Python") (py "Python and SQL") = Ok r2
    ∧ (match_score r1 ≤ match_score r2)%Z
    ∧ (∀ w, w ∈ overlap r1 → w ∈ overlap r2)
    ∧ (∀ w, w ∈ missing r2 → w ∈ missing r1).
Proof.
  exact (analyze_match_monotone ucd_excerpt canonical_order
           (py "Excel and Python") (py "I know SQL, Excel and Python")
           (py "Python and SQL") resume_grows job_below).
Defined.

Lemma analyze_match_lists_score_witness :
  ∃ r, analyze_match ucd_excerpt canonical_order (py "Excel and Python")
         (py "Python and SQL") = Ok r
    ∧ length (overlap r) + length (missing r)
      = size (token_set ucd_excerpt (py "Python and SQL"))
    ∧ (2 * Z.abs (100 * Z.of_nat (length (overlap r))
                  - match_score r
                    * Z.of_nat (length (overlap r) + length (missing r))%nat)
       ≤ Z.of_nat (length (overlap r) + length (missing r))%nat)%Z.
Proof.
  exact (analyze_match_lists_score ucd_excerpt canonical_order
           (py "Excel and Python") (py "Python and SQL") job_below).
Defined.

Lemma half_of_job :
  (100 * len (token_set ucd_excerpt (py "Python and SQL")
              ∩ token_set ucd_excerpt (py "Excel and Python"))
   = 50 * len (token_set ucd_excerpt (py "Python and SQL")))%Z.
Proof. vm_compute. reflexivity. Qed.

Lemma analyze_match_exact_percentage_witness :
  ∃ r, analyze_match ucd_excerpt canonical_order (py "Excel and Python")
         (py "Python and SQL") = Ok r
    ∧ match_score r = 50%Z.
Proof.
  exact (analyze_match_exact_percentage ucd_excerpt canonical_order
           (py "Excel and Python") (py "Python and SQL") 50
           job_nonempty job_below half_of_job).
Defined.

Lemma keyword_chips_markup_witness :
  ∃ r, analyze_match ucd_excerpt canonical_order (py "Excel and Python")
         (py "Python and SQL") = Ok r
    ∧ filter (.∈ markup) (keyword_chips (keys (top_job_keywords r)))
      = mjoin (replicate (length (top_job_keywords r)) (py "<''><>"))
    ∧ filter (.∈ markup) (keyword_chips (take 15 (missing r)))
      = mjoin (replicate (length (missing r) `min` 15) (py "<''><>")).
Proof.
  exact (keyword_chips_markup ucd_excerpt canonical_order
           (py "Excel and Python") (py "Python and SQL") ucd_excerpt_closed).
Defined.
